(** * Fast DCT through an FFT: [ei::dct::transform] and [ei::dct::inverse_transform]

    A shallow embedding of [src/dsp/dct/fast-dct-fft.cpp] and the properties
    of its two entry points.

    Modelling choices.
    - [float] is an abstract carrier [F] with the operations the source
      applies to it (class [Float32]).  Structural results hold for every
      carrier; numerical ones are stated for the carrier of real numbers
      with an exact discrete Fourier transform.
    - [size_t] values are natural numbers: the development covers lengths
      for which [len * 2] and the byte sizes do not wrap around.
    - The caller's [vector] and the accounting allocator are the state that
      the two functions thread; every access to either one is also recorded
      in a trace of events, in program order.
    - The scratch buffers are local lists, zero filled as [calloc] hands
      them out.
    - [ei::numpy::rfft], [kiss_fft], [kiss_fft_alloc], the [sizeof]s and the
      status constants are not part of the file: they are the fields of
      [Externals]. *)

From Stdlib Require Import ZArith List Lia Reals Lra.
From stdpp Require Import base list.

#[local] Arguments Nat.div : simpl never.
#[local] Arguments Nat.modulo : simpl never.
#[local] Arguments Nat.mul : simpl never.
#[local] Arguments Z.of_nat : simpl never.

(** ** Scalars and complex bins *)

Class Float32 (F : Type) := {
  f_zero : F;                 (* the float read from zero-filled memory *)
  f_add : F -> F -> F;
  f_mul : F -> F -> F;
  f_neg : F -> F;
  f_half : F -> F;            (* [x / 2] *)
  f_cos : F -> F;
  f_sin : F -> F;
  f_angle : nat -> nat -> F   (* [float temp = i * M_PI / (len * 2)] *)
}.

(** [kiss_fft_cpx], which [ei::fft_complex_t] mirrors field for field. *)
Record kiss_fft_cpx (F : Type) := Cpx { cpx_r : F; cpx_i : F }.
Arguments Cpx {F} _ _.
Arguments cpx_r {F} _.
Arguments cpx_i {F} _.

Definition cpx_zero `{Float32 F} : kiss_fft_cpx F := Cpx f_zero f_zero.

(** Reading a scratch buffer; the source only reads indices inside it. *)
Definition bin_at `{Float32 F} (buf : list (kiss_fft_cpx F)) (i : nat) : kiss_fft_cpx F :=
  default cpx_zero (buf !! i).

(** ** The collaborators that are not in this file *)

Record Externals (F : Type) := {
  (* [ei::numpy::rfft(src, src_size, output, output_size, n_fft)]: the
     status and the contents of [output] afterwards *)
  rfft : list F -> nat -> list (kiss_fft_cpx F) -> nat -> nat -> Z * list (kiss_fft_cpx F);
  (* [kiss_fft(cfg, fin, fout)] for a [cfg] made by [kiss_fft_alloc(nfft, 0, ..)]:
     the contents of [fout] afterwards; it reports no status *)
  kiss_fft : nat -> list (kiss_fft_cpx F) -> list (kiss_fft_cpx F) -> list (kiss_fft_cpx F);
  (* the length [kiss_fft_alloc] stores through its [lenmem] argument *)
  kiss_fft_mem_length : nat -> nat;
  sizeof_float : nat;
  sizeof_fft_complex_t : nat;
  sizeof_kiss_fft_cpx : nat;
  EIDSP_OK : Z;
  EIDSP_OUT_OF_MEM : Z
}.
Arguments rfft {F} _ _ _ _ _ _.
Arguments kiss_fft {F} _ _ _ _.
Arguments kiss_fft_mem_length {F} _ _.
Arguments sizeof_float {F} _.
Arguments sizeof_fft_complex_t {F} _.
Arguments sizeof_kiss_fft_cpx {F} _.
Arguments EIDSP_OK {F} _.
Arguments EIDSP_OUT_OF_MEM {F} _.

(** ** State: the caller's vector and the allocator *)

Record heap := Heap {
  plan : list bool;          (* answers to the coming requests: [false] = refused *)
  next_ptr : nat;            (* the address the next served request gets *)
  live : list (nat * nat);   (* blocks in use: address and size in bytes *)
  tracked : Z                (* bytes on the accounting ledger *)
}.

Record state (F : Type) := State { vector : list F; mem : heap }.
Arguments State {F} _ _.
Arguments vector {F} _.
Arguments mem {F} _.

Inductive event (F : Type) :=
| EvCalloc (size : nat) (p : option nat)
| EvCfgAlloc (nfft : nat) (p : option nat)
| EvRegister (size : nat)
| EvFree (p size : nat)
| EvRead (idx : nat)
| EvWrite (idx : nat) (x : F)
| EvRfft (src : list F) (status : Z) (output : list (kiss_fft_cpx F))
| EvKissFft (fin fout : list (kiss_fft_cpx F)).
Arguments EvCalloc {F} _ _.
Arguments EvCfgAlloc {F} _ _.
Arguments EvRegister {F} _.
Arguments EvFree {F} _ _.
Arguments EvRead {F} _.
Arguments EvWrite {F} _ _.
Arguments EvRfft {F} _ _ _.
Arguments EvKissFft {F} _ _.

(** A computation returns a value, the state it leaves and the events it
    produced, oldest first. *)
Definition M (F A : Type) : Type := state F -> A * state F * list (event F).

Definition ret {F A} (a : A) : M F A := fun s => (a, s, []).

Definition bind {F A B} (m : M F A) (k : A -> M F B) : M F B :=
  fun s =>
    let '(a, s1, t1) := m s in
    let '(b, s2, t2) := k a s1 in
    (b, s2, t1 ++ t2).

Declare Scope dct_scope.
Delimit Scope dct_scope with dct.
Notation "x <- m ;; k" := (bind m (fun x => k))
  (at level 100, m at next level, right associativity) : dct_scope.
Notation "m ;; k" := (bind m (fun _ => k))
  (at level 100, right associativity) : dct_scope.
Open Scope dct_scope.

(** [for (size_t i = start; i < start + n; i++) a = body(i, a);] *)
Fixpoint for_loop {F A} (body : nat -> A -> M F A) (start n : nat) (a : A) : M F A :=
  match n with
  | O => ret a
  | S n' => a' <- body start a ;; for_loop body (S start) n' a'
  end.

(** *** Accesses to the caller's vector *)

Definition vec_read `{Float32 F} (idx : nat) : M F F :=
  fun s => (default f_zero (vector s !! idx), s, [EvRead idx]).

Definition vec_write {F} (idx : nat) (x : F) : M F unit :=
  fun s => (tt, State (<[idx := x]> (vector s)) (mem s), [EvWrite idx x]).

(** *** The accounting allocator *)

Fixpoint release (p : nat) (l : list (nat * nat)) : list (nat * nat) :=
  match l with
  | [] => []
  | b :: l' => if Nat.eqb (fst b) p then l' else b :: release p l'
  end.

(** One request to the underlying allocator. *)
Definition request (size : nat) (h : heap) : option nat * heap :=
  match plan h with
  | false :: rest => (None, Heap rest (next_ptr h) (live h) (tracked h))
  | served =>
      (Some (next_ptr h),
       Heap (tl served) (S (next_ptr h)) ((next_ptr h, size) :: live h) (tracked h))
  end.

(** [ei_dsp_calloc(size, 1)]: a served request is entered on the ledger. *)
Definition ei_dsp_calloc {F} (size : nat) : M F (option nat) :=
  fun s =>
    let '(p, h) := request size (mem s) in
    let h' := match p with
              | Some _ => Heap (plan h) (next_ptr h) (live h) (tracked h + Z.of_nat size)
              | None => h
              end in
    (p, State (vector s) h', [EvCalloc size p]).

(** [kiss_fft_alloc(nfft, 0, NULL, NULL, &lenmem)]: allocates outside the ledger. *)
Definition kiss_fft_alloc {F} (X : Externals F) (nfft : nat) : M F (option nat * nat) :=
  fun s =>
    let '(p, h) := request (kiss_fft_mem_length X nfft) (mem s) in
    ((p, kiss_fft_mem_length X nfft), State (vector s) h, [EvCfgAlloc nfft p]).

Definition ei_dsp_register_alloc {F} (size : nat) : M F unit :=
  fun s =>
    let h := mem s in
    (tt, State (vector s) (Heap (plan h) (next_ptr h) (live h) (tracked h + Z.of_nat size)),
     [EvRegister size]).

Definition ei_dsp_free {F} (p size : nat) : M F unit :=
  fun s =>
    let h := mem s in
    (tt,
     State (vector s)
       (Heap (plan h) (next_ptr h) (release p (live h)) (tracked h - Z.of_nat size)),
     [EvFree p size]).

(** *** Calls to the FFT *)

Definition call_rfft {F} (X : Externals F) (src : list F) (src_size : nat)
    (output : list (kiss_fft_cpx F)) (output_size n_fft : nat)
  : M F (Z * list (kiss_fft_cpx F)) :=
  fun s =>
    let '(status, out) := rfft X src src_size output output_size n_fft in
    ((status, out), s, [EvRfft src status out]).

Definition call_kiss_fft {F} (X : Externals F) (nfft : nat)
    (fin fout : list (kiss_fft_cpx F)) : M F (list (kiss_fft_cpx F)) :=
  fun s =>
    let out := kiss_fft X nfft fin fout in
    (out, s, [EvKissFft fin out]).

(** ** [ei::dct::transform]: DCT type II, unscaled *)

Section Transform.
Context {F : Type} `{Float32 F} (X : Externals F).

(** Lines 52-55: one round of the loop that fills [fft_data_in]. *)
Definition transform_pre_body (len i : nat) (fft_data_in : list F) : M F (list F) :=
  x <- vec_read (i * 2) ;;
  y <- vec_read (i * 2 + 1) ;;
  ret (<[len - 1 - i := y]> (<[i := x]> fft_data_in)).

(** Lines 51-58. *)
Definition transform_pre (len : nat) (fft_data_in : list F) : M F (list F) :=
  let halfLen := len / 2 in
  fft_data_in <- for_loop (transform_pre_body len) 0 halfLen fft_data_in ;;
  if Nat.eqb (len mod 2) 1 then
    x <- vec_read (len - 1) ;;
    ret (<[halfLen := x]> fft_data_in)
  else ret fft_data_in.

(** Lines 68-69: the value stored in [vector[i]]. *)
Definition transform_coeff (len : nat) (fft_data_out : list (kiss_fft_cpx F)) (i : nat) : F :=
  let temp := f_angle i len in
  f_add (f_mul (cpx_r (bin_at fft_data_out i)) (f_cos temp))
        (f_mul (cpx_i (bin_at fft_data_out i)) (f_sin temp)).

(** Lines 67-70. *)
Definition transform_post (len : nat) (fft_data_out : list (kiss_fft_cpx F)) : M F unit :=
  for_loop (fun i _ => vec_write i (transform_coeff len fft_data_out i)) 0 (len / 2 + 1) tt.

Definition transform (len : nat) : M F Z :=
  let fft_data_out_size := (len / 2 + 1) * sizeof_fft_complex_t X in
  let fft_data_in_size := len * sizeof_float X in
  fft_data_out_p <- ei_dsp_calloc fft_data_out_size ;;
  match fft_data_out_p with
  | None => ret (EIDSP_OUT_OF_MEM X)
  | Some fft_data_out_p =>
    fft_data_in_p <- ei_dsp_calloc fft_data_in_size ;;
    match fft_data_in_p with
    | None =>
      ei_dsp_free fft_data_out_p fft_data_out_size ;;
      ret (EIDSP_OUT_OF_MEM X)
    | Some fft_data_in_p =>
      fft_data_in <- transform_pre len (replicate len f_zero) ;;
      res <- call_rfft X fft_data_in len (replicate (len / 2 + 1) cpx_zero) (len / 2 + 1) len ;;
      let '(r, fft_data_out) := res in
      if negb (Z.eqb r 0) then
        ei_dsp_free fft_data_in_p fft_data_in_size ;;
        ei_dsp_free fft_data_out_p fft_data_out_size ;;
        ret r
      else
        transform_post len fft_data_out ;;
        ei_dsp_free fft_data_in_p fft_data_in_size ;;
        ei_dsp_free fft_data_out_p fft_data_out_size ;;
        ret 0%Z
    end
  end.
End Transform.

(** ** [ei::dct::inverse_transform]: DCT type III, unscaled *)

Section InverseTransform.
Context {F : Type} `{Float32 F} (X : Externals F).

(** Lines 113-115: one round of the loop that fills the complex input. *)
Definition inverse_pre_body (len i : nat) (fft_data_in : list (kiss_fft_cpx F))
  : M F (list (kiss_fft_cpx F)) :=
  let temp := f_angle i len in
  x <- vec_read i ;;
  let b := bin_at fft_data_in i in
  ret (<[i := Cpx (f_mul x (f_cos temp)) (f_mul (cpx_i b) (f_neg (f_sin temp)))]> fft_data_in).

(** Lines 108-116. *)
Definition inverse_pre (len : nat) (fft_data_in : list (kiss_fft_cpx F))
  : M F (list (kiss_fft_cpx F)) :=
  (if Nat.ltb 0 len then
     x <- vec_read 0 ;;
     vec_write 0 (f_half x)
   else ret tt) ;;
  for_loop (inverse_pre_body len) 0 len fft_data_in.

(** Lines 123-124. *)
Definition inverse_post_body (len : nat) (fft_data_out : list (kiss_fft_cpx F))
    (i : nat) (_ : unit) : M F unit :=
  vec_write (i * 2 + 0) (cpx_r (bin_at fft_data_out i)) ;;
  vec_write (i * 2 + 1) (cpx_r (bin_at fft_data_out (len - 1 - i))).

(** Lines 121-129. *)
Definition inverse_post (len : nat) (fft_data_out : list (kiss_fft_cpx F)) : M F unit :=
  let halfLen := len / 2 in
  for_loop (inverse_post_body len fft_data_out) 0 halfLen tt ;;
  if Nat.eqb (len mod 2) 1 then
    vec_write (len - 1) (cpx_r (bin_at fft_data_out halfLen))
  else ret tt.

Definition inverse_transform (len : nat) : M F Z :=
  let fft_data_out_size := len * sizeof_kiss_fft_cpx X in
  let fft_data_in_size := len * sizeof_kiss_fft_cpx X in
  fft_data_out_p <- ei_dsp_calloc fft_data_out_size ;;
  match fft_data_out_p with
  | None => ret (EIDSP_OUT_OF_MEM X)
  | Some fft_data_out_p =>
    fft_data_in_p <- ei_dsp_calloc fft_data_in_size ;;
    match fft_data_in_p with
    | None =>
      ei_dsp_free fft_data_out_p fft_data_out_size ;;
      ret (EIDSP_OUT_OF_MEM X)
    | Some fft_data_in_p =>
      c <- kiss_fft_alloc X len ;;
      let '(cfg, kiss_fftr_mem_length) := c in
      match cfg with
      | None =>
        ei_dsp_free fft_data_in_p fft_data_in_size ;;
        ei_dsp_free fft_data_out_p fft_data_out_size ;;
        ret (EIDSP_OUT_OF_MEM X)
      | Some cfg =>
        ei_dsp_register_alloc kiss_fftr_mem_length ;;
        fft_data_in <- inverse_pre len (replicate len cpx_zero) ;;
        fft_data_out <- call_kiss_fft X len fft_data_in (replicate len cpx_zero) ;;
        inverse_post len fft_data_out ;;
        ei_dsp_free cfg kiss_fftr_mem_length ;;
        ei_dsp_free fft_data_in_p fft_data_in_size ;;
        ei_dsp_free fft_data_out_p fft_data_out_size ;;
        ret (EIDSP_OK X)
      end
    end
  end.
End InverseTransform.

(** ** Reading a run *)

Definition status_of {F A} (res : A * state F * list (event F)) : A := res.1.1.
Definition final {F A} (res : A * state F * list (event F)) : state F := res.1.2.
Definition trace {F A} (res : A * state F * list (event F)) : list (event F) := res.2.

Definition is_read {F} (e : event F) : bool :=
  match e with EvRead _ => true | _ => false end.

Definition is_write {F} (e : event F) : bool :=
  match e with EvWrite _ _ => true | _ => false end.

(** The accesses to the caller's vector, in order. *)
Definition accesses {F} (t : list (event F)) : list (event F) :=
  List.filter (fun e => is_read e || is_write e) t.

Definition writes {F} (t : list (event F)) : list (event F) :=
  List.filter is_write t.

(** The calls of the real FFT: input, status, output. *)
Fixpoint rfft_calls {F} (t : list (event F)) : list (list F * Z * list (kiss_fft_cpx F)) :=
  match t with
  | [] => []
  | EvRfft src r out :: t' => (src, r, out) :: rfft_calls t'
  | _ :: t' => rfft_calls t'
  end.

(** The calls of the complex FFT: input and output. *)
Fixpoint kiss_fft_calls {F} (t : list (event F))
  : list (list (kiss_fft_cpx F) * list (kiss_fft_cpx F)) :=
  match t with
  | [] => []
  | EvKissFft fin fout :: t' => (fin, fout) :: kiss_fft_calls t'
  | _ :: t' => kiss_fft_calls t'
  end.

(** The answer the allocator gives to the [k]-th coming request. *)
Definition answer (k : nat) (h : heap) : bool := default true (plan h !! k).

(** Nothing is held that was not held before. *)
Definition same_resources (h h' : heap) : Prop :=
  live h' = live h /\ tracked h' = tracked h.

(** The error an event stands for, if any. *)
Definition failure_of {F} (X : Externals F) (e : event F) : option Z :=
  match e with
  | EvCalloc _ None => Some (EIDSP_OUT_OF_MEM X)
  | EvCfgAlloc _ None => Some (EIDSP_OUT_OF_MEM X)
  | EvRfft _ r _ => if Z.eqb r 0 then None else Some r
  | _ => None
  end.

(** No write to the vector before an FFT call has come back without error. *)
Fixpoint writes_follow_fft {F} (t : list (event F)) : bool :=
  match t with
  | [] => true
  | EvWrite _ _ :: _ => false
  | EvRfft _ r _ :: t' => if Z.eqb r 0 then true else writes_follow_fft t'
  | EvKissFft _ _ :: _ => true
  | _ :: t' => writes_follow_fft t'
  end.

(** An access to the caller's vector stays below index [len]; other
    events pass. *)
Definition in_bounds {F} (len : nat) (e : event F) : bool :=
  match e with
  | EvRead idx => Nat.ltb idx len
  | EvWrite idx _ => Nat.ltb idx len
  | _ => true
  end.

(** A request that the allocator refused. *)
Definition refusal {F} (e : event F) : bool :=
  match e with
  | EvCalloc _ None => true
  | EvCfgAlloc _ None => true
  | _ => false
  end.

(** ** Two carriers *)

(** *** Symbolic floats: every operation builds the expression it stands for *)

Inductive sym :=
| SIn (n : nat)
| SZero
| SAdd (a b : sym)
| SMul (a b : sym)
| SNeg (a : sym)
| SHalf (a : sym)
| SCos (a : sym)
| SSin (a : sym)
| SAngle (i len : nat)
| SRfftRe (k : nat)          (* real part of bin [k] of the real FFT *)
| SRfftIm (k : nat)
| SFftRe (k : nat)           (* real part of bin [k] of the complex FFT *)
| SFftIm (k : nat).

#[export] Instance sym_float : Float32 sym := {|
  f_zero := SZero;
  f_add := SAdd;
  f_mul := SMul;
  f_neg := SNeg;
  f_half := SHalf;
  f_cos := SCos;
  f_sin := SSin;
  f_angle := SAngle
|}.

(** The bins the symbolic real FFT returns for [n] outputs. *)
Definition sym_bins (n : nat) : list (kiss_fft_cpx sym) :=
  map (fun k => Cpx (SRfftRe k) (SRfftIm k)) (seq 0 n).

(** Stand-ins for the collaborators: [ei::numpy::rfft] answers [rfft_status]
    and, when that is 0, fills the output with symbolic bins. *)
Definition sym_externals (rfft_status : Z) : Externals sym := {|
  rfft _ _ output output_size _ :=
    if Z.eqb rfft_status 0
    then (0%Z, sym_bins output_size)
    else (rfft_status, output);
  kiss_fft nfft _ _ := map (fun k => Cpx (SFftRe k) (SFftIm k)) (seq 0 nfft);
  kiss_fft_mem_length nfft := 264 + 8 * nfft;
  sizeof_float := 4;
  sizeof_fft_complex_t := 8;
  sizeof_kiss_fft_cpx := 8;
  EIDSP_OK := 0%Z;
  EIDSP_OUT_OF_MEM := (-1002)%Z
|}.

(** A caller's vector of [n] symbolic samples and an allocator that
    answers the coming requests as [answers] says. *)
Definition sym_state (n : nat) (answers : list bool) : state sym :=
  State (map SIn (seq 0 n)) (Heap answers 100 [] 0).

(** ** Intermediate values and the shape of traces *)

Section Shapes.
Context {F : Type} `{Float32 F}.

(** What a read of [vector[idx]] returns in state [s]. *)
Definition sample (s : state F) (idx : nat) : F := default f_zero (vector s !! idx).

(** The reads of [k] rounds of the loop of lines 52-55. *)
Definition pre_loop_reads (k : nat) : list (event F) :=
  flat_map (fun i => [EvRead (i * 2); EvRead (i * 2 + 1)]) (seq 0 k).

(** The reads of lines 51-58. *)
Definition pre_reads (len : nat) : list (event F) :=
  pre_loop_reads (len / 2) ++
  (if Nat.eqb (len mod 2) 1 then [EvRead (len - 1)] else []).

(** The writes of [k] rounds of the loop of lines 67-70. *)
Definition post_writes (len : nat) (out : list (kiss_fft_cpx F)) (k : nat) : list (event F) :=
  map (fun i => EvWrite i (transform_coeff len out i)) (seq 0 k).

(** The complex sample the loop of lines 112-116 stores at index [i] of
    the zero-filled buffer. *)
Definition inverse_input (len : nat) (s : state F) (i : nat) : kiss_fft_cpx F :=
  Cpx (f_mul (sample s i) (f_cos (f_angle i len)))
      (f_mul f_zero (f_neg (f_sin (f_angle i len)))).

(** The reads of [k] rounds of the loop of lines 112-116. *)
Definition index_reads (k : nat) : list (event F) := map EvRead (seq 0 k).

(** The state after [vector[0] /= 2]. *)
Definition halved (len : nat) (s : state F) : state F :=
  if Nat.ltb 0 len then State (<[0 := f_half (sample s 0)]> (vector s)) (mem s) else s.

(** The accesses of lines 108-110. *)
Definition halving (len : nat) (s : state F) : list (event F) :=
  if Nat.ltb 0 len then [EvRead 0; EvWrite 0 (f_half (sample s 0))] else [].

(** The writes of [k] rounds of the loop of lines 122-125. *)
Definition post_loop_writes (len : nat) (out : list (kiss_fft_cpx F)) (k : nat)
  : list (event F) :=
  flat_map (fun i => [EvWrite (i * 2 + 0) (cpx_r (bin_at out i));
                      EvWrite (i * 2 + 1) (cpx_r (bin_at out (len - 1 - i)))]) (seq 0 k).

(** The writes of lines 121-129. *)
Definition inverse_writes (len : nat) (out : list (kiss_fft_cpx F)) : list (event F) :=
  post_loop_writes len out (len / 2) ++
  (if Nat.eqb (len mod 2) 1
   then [EvWrite (len - 1) (cpx_r (bin_at out (len / 2)))] else []).

(** Events that neither write the vector nor call an FFT. *)
Definition quiet (e : event F) : bool :=
  match e with
  | EvWrite _ _ | EvRfft _ _ _ | EvKissFft _ _ => false
  | _ => true
  end.

(** An access to the caller's vector. *)
Definition access (e : event F) : bool := is_read e || is_write e.

End Shapes.

(** *** Real numbers: exact arithmetic *)

(** The carrier of real numbers: the operations of [float] without
    rounding. *)
#[export] Instance real_float : Float32 R := {|
  f_zero := 0%R;
  f_add := Rplus;
  f_mul := Rmult;
  f_neg := Ropp;
  f_half x := (x / 2)%R;
  f_cos := cos;
  f_sin := sin;
  f_angle i len := (INR i * PI / INR (len * 2))%R
|}.

(** [f 0 + f 1 + ... + f (n - 1)]. *)
Fixpoint Rsum (f : nat -> R) (n : nat) : R :=
  match n with
  | O => 0%R
  | S n' => (Rsum f n' + f n')%R
  end.

(** Modelled from the spec: the FFT primitive ([ei::numpy::rfft] and
    [kiss_fft], whose code is outside this file), taken as the exact forward
    discrete Fourier transform: bin [k] of [n] complex samples [z] is the
    sum of [z m * exp (- 2 pi i m k / n)]. *)
Definition dft_bin (n : nat) (fin : list (kiss_fft_cpx R)) (k : nat) : kiss_fft_cpx R :=
  Cpx (Rsum (fun m =>
               cpx_r (bin_at fin m) * cos (2 * PI * INR (m * k) / INR n) +
               cpx_i (bin_at fin m) * sin (2 * PI * INR (m * k) / INR n))%R n)
      (Rsum (fun m =>
               cpx_i (bin_at fin m) * cos (2 * PI * INR (m * k) / INR n) -
               cpx_r (bin_at fin m) * sin (2 * PI * INR (m * k) / INR n))%R n).

(** Modelled from the spec: the collaborators with exact transforms: the
    real FFT returns status 0 and the first [output_size] bins of the
    transform of its real input; the complex FFT returns all [nfft] bins. *)
Definition exact_externals : Externals R := {|
  rfft src _ _ output_size n_fft :=
    (0%Z, map (dft_bin n_fft (map (fun x => Cpx x 0%R) src)) (seq 0 output_size));
  kiss_fft nfft fin _ := map (dft_bin nfft fin) (seq 0 nfft);
  kiss_fft_mem_length nfft := 264 + 8 * nfft;
  sizeof_float := 4;
  sizeof_fft_complex_t := 8;
  sizeof_kiss_fft_cpx := 8;
  EIDSP_OK := 0%Z;
  EIDSP_OUT_OF_MEM := (-1002)%Z
|}.

(** The unscaled DCT-II of the spec: coefficient [k] of [v] is the sum of
    [v[n] * cos (pi / N * (n + 0.5) * k)]. *)
Definition dct2 (v : list R) (k : nat) : R :=
  Rsum (fun n => default 0 (v !! n) * cos (PI / INR (length v) * (INR n + 1 / 2) * INR k))%R
       (length v).

(** An allocator that serves every request. *)
Definition fresh_heap : heap := Heap [] 0 [] 0.

(** Term [m] of the phase-weighted bin [k] of [src], and term [n] of
    coefficient [k] of the DCT-II of [v], both for length [N]. *)
Definition bin_term (N k : nat) (src : list R) (m : nat) : R :=
  (default 0 (src !! m) *
   cos (2 * PI * INR (m * k) / INR N + INR k * PI / INR (N * 2)))%R.

Definition dct_term (N k : nat) (v : list R) (n : nat) : R :=
  (default 0 (v !! n) * cos (PI / INR N * (INR n + 1 / 2) * INR k))%R.

(** [inverse_transform] after [transform], on the same vector and allocator. *)
Definition roundtrip (v : list R) (h : heap) : list R :=
  vector (final (inverse_transform exact_externals (length v)
                   (final (transform exact_externals (length v) (State v h))))).

(** What [inverse_transform] leaves in the entry that takes bin [m], for the
    [N] input entries [w] (entry 0 already halved), in exact arithmetic:
    the sum of [w[k] * cos (k pi / (2 N)) * cos (2 pi k m / N)]. *)
Definition inverse_sum (N : nat) (w : list R) (m : nat) : R :=
  Rsum (fun k => default 0 (w !! k) * cos (INR k * PI / INR (N * 2)) *
                 cos (2 * PI * INR (k * m) / INR N))%R N.

(** * Proofs *)

(** ** Running the primitives *)

Lemma answer_tail k p n l z :
  answer k (Heap (tl p) n l z) = answer (S k) (Heap p n l z).
Proof. unfold answer; simpl. destruct p; reflexivity. Qed.

Lemma request_served size h :
  answer 0 h = true ->
  request size h =
    (Some (next_ptr h),
     Heap (tl (plan h)) (S (next_ptr h)) ((next_ptr h, size) :: live h) (tracked h)).
Proof.
  unfold answer, request. destruct (plan h) as [|[] rest]; simpl; try reflexivity.
  discriminate.
Qed.

Lemma request_refused size h :
  answer 0 h = false ->
  request size h = (None, Heap (tl (plan h)) (next_ptr h) (live h) (tracked h)).
Proof.
  unfold answer, request. destruct (plan h) as [|[] rest]; simpl; try discriminate.
  reflexivity.
Qed.

Lemma calloc_served {F} size (s : state F) :
  answer 0 (mem s) = true ->
  ei_dsp_calloc size s =
    (Some (next_ptr (mem s)),
     State (vector s)
       (Heap (tl (plan (mem s))) (S (next_ptr (mem s)))
          ((next_ptr (mem s), size) :: live (mem s))
          (tracked (mem s) + Z.of_nat size)),
     [EvCalloc size (Some (next_ptr (mem s)))]).
Proof. intros Hs. unfold ei_dsp_calloc. rewrite request_served by assumption. reflexivity. Qed.

Lemma calloc_refused {F} size (s : state F) :
  answer 0 (mem s) = false ->
  ei_dsp_calloc size s =
    (None,
     State (vector s) (Heap (tl (plan (mem s))) (next_ptr (mem s)) (live (mem s)) (tracked (mem s))),
     [EvCalloc size None]).
Proof. intros Hs. unfold ei_dsp_calloc. rewrite request_refused by assumption. reflexivity. Qed.

Lemma cfg_served {F} (X : Externals F) nfft (s : state F) :
  answer 0 (mem s) = true ->
  kiss_fft_alloc X nfft s =
    ((Some (next_ptr (mem s)), kiss_fft_mem_length X nfft),
     State (vector s)
       (Heap (tl (plan (mem s))) (S (next_ptr (mem s)))
          ((next_ptr (mem s), kiss_fft_mem_length X nfft) :: live (mem s))
          (tracked (mem s))),
     [EvCfgAlloc nfft (Some (next_ptr (mem s)))]).
Proof. intros Hs. unfold kiss_fft_alloc. rewrite request_served by assumption. reflexivity. Qed.

Lemma cfg_refused {F} (X : Externals F) nfft (s : state F) :
  answer 0 (mem s) = false ->
  kiss_fft_alloc X nfft s =
    ((None, kiss_fft_mem_length X nfft),
     State (vector s) (Heap (tl (plan (mem s))) (next_ptr (mem s)) (live (mem s)) (tracked (mem s))),
     [EvCfgAlloc nfft None]).
Proof. intros Hs. unfold kiss_fft_alloc. rewrite request_refused by assumption. reflexivity. Qed.

Lemma release_head p size l : release p ((p, size) :: l) = l.
Proof. simpl. rewrite Nat.eqb_refl. reflexivity. Qed.

(** ** Loops *)

(** The invariant rule: [I k a s t] relates the number of rounds done, the
    accumulator, the state and the events since the loop began. *)
Lemma for_loop_inv {F A} (body : nat -> A -> M F A)
    (I : nat -> A -> state F -> list (event F) -> Prop) n :
  forall start a s,
    I 0 a s [] ->
    (forall k a s t, k < n -> I k a s t ->
       I (S k) (status_of (body (start + k) a s)) (final (body (start + k) a s))
         (t ++ trace (body (start + k) a s))) ->
    I n (status_of (for_loop body start n a s)) (final (for_loop body start n a s))
      (trace (for_loop body start n a s)).
Proof.
  revert I. induction n as [|n IH]; intros I start a s H0 Hstep.
  - exact H0.
  - simpl for_loop. unfold bind.
    pose proof (Hstep 0 a s [] ltac:(lia) H0) as H1.
    rewrite Nat.add_0_r in H1. simpl in H1.
    destruct (body start a s) as [[a1 s1] t1] eqn:Hb.
    unfold status_of, final, trace in H1; simpl in H1.
    specialize (IH (fun k a s t => I (S k) a s (t1 ++ t)) (S start) a1 s1).
    simpl in IH.
    destruct (for_loop body (S start) n a1 s1) as [[a2 s2] t2] eqn:Hl.
    unfold status_of, final, trace in *; simpl in *.
    apply IH.
    + rewrite app_nil_r. exact H1.
    + intros k a' s' t' Hk HI.
      replace (S (start + k)) with (start + S k) by lia.
      rewrite app_assoc. apply Hstep; [lia | exact HI].
Qed.

Section LoopFacts.
Context {F : Type} `{Float32 F}.

Lemma sample_lookup (s : state F) idx :
  idx < length (vector s) -> vector s !! idx = Some (sample s idx).
Proof.
  intros Hi. unfold sample.
  destruct (lookup_lt_is_Some_2 (vector s) idx Hi) as [x Hx]. rewrite Hx. reflexivity.
Qed.

(** *** Lines 52-55 *)

Lemma pre_loop_reads_S k :
  @pre_loop_reads F (S k) = pre_loop_reads k ++ [EvRead (k * 2); EvRead (k * 2 + 1)].
Proof. unfold pre_loop_reads. rewrite seq_S, flat_map_app. simpl. reflexivity. Qed.

Lemma transform_pre_loop len buf (s : state F) n :
  length buf = len -> n <= len / 2 ->
  exists src,
    for_loop (transform_pre_body len) 0 n buf s = (src, s, pre_loop_reads n) /\
    length src = len /\
    (forall i, i < n ->
       src !! i = Some (sample s (i * 2)) /\
       src !! (len - 1 - i) = Some (sample s (i * 2 + 1))) /\
    (forall j, n <= j -> j < len - n -> src !! j = buf !! j).
Proof.
  intros Hlen Hn.
  pose proof (Nat.Div0.mul_div_le len 2) as Hhalf.
  pose proof (for_loop_inv (transform_pre_body len)
    (fun k b s' t =>
       k <= n -> s' = s /\ t = pre_loop_reads k /\ length b = len /\
       (forall i, i < k ->
          b !! i = Some (sample s (i * 2)) /\
          b !! (len - 1 - i) = Some (sample s (i * 2 + 1))) /\
       (forall j, k <= j -> j < len - k -> b !! j = buf !! j))
    n 0 buf s) as Hinv.
  destruct (for_loop (transform_pre_body len) 0 n buf s) as [[src s'] t].
  unfold status_of, final, trace in Hinv; simpl in Hinv.
  destruct Hinv as (-> & -> & Hl & Hfill & Hrest); [ | | lia | eauto ].
  - intros _. split_and!; auto; intros; lia.
  - intros k b s1 t1 Hk HI Hk'.
    destruct (HI ltac:(lia)) as (-> & -> & Hl & Hfill & Hrest).
    unfold transform_pre_body, bind, vec_read, ret; simpl.
    rewrite pre_loop_reads_S.
    split_and!; auto.
    + rewrite !length_insert. exact Hl.
    + intros i Hi.
      destruct (decide (i = k)) as [->|Hne].
      * split.
        -- rewrite list_lookup_insert_ne by lia.
           rewrite list_lookup_insert_eq by lia. reflexivity.
        -- rewrite list_lookup_insert_eq by (rewrite length_insert; lia). reflexivity.
      * destruct (Hfill i ltac:(lia)) as [Ha Hb].
        rewrite !list_lookup_insert_ne by lia. split; assumption.
    + intros j Hj1 Hj2. rewrite !list_lookup_insert_ne by lia. apply Hrest; lia.
Qed.

(** *** Lines 51-58 *)

Lemma transform_pre_spec len buf (s : state F) :
  length buf = len ->
  exists src,
    transform_pre len buf s = (src, s, pre_reads len) /\
    length src = len /\
    (forall i, i < len / 2 ->
       src !! i = Some (sample s (i * 2)) /\
       src !! (len - 1 - i) = Some (sample s (i * 2 + 1))) /\
    (len mod 2 = 1 -> src !! (len / 2) = Some (sample s (len - 1))).
Proof.
  intros Hlen.
  pose proof (Nat.div_mod_eq len 2) as Hdm.
  destruct (transform_pre_loop len buf s (len / 2) Hlen (le_n _))
    as (src & Hrun & Hl & Hfill & Hrest).
  unfold transform_pre, bind. rewrite Hrun. unfold pre_reads.
  destruct (Nat.eqb_spec (len mod 2) 1) as [Hodd|Heven].
  - exists (<[len / 2 := sample s (len - 1)]> src).
    unfold vec_read, ret; simpl.
    split_and!; auto.
    + rewrite length_insert. exact Hl.
    + intros i Hi. rewrite !list_lookup_insert_ne by lia. apply Hfill; assumption.
    + intros _. rewrite list_lookup_insert_eq by lia. reflexivity.
  - exists src. unfold ret; simpl. rewrite app_nil_r.
    split_and!; auto. intros Hodd. contradiction.
Qed.
End LoopFacts.

Section PostFacts.
Context {F : Type} `{Float32 F}.

(** *** Lines 67-70 *)

Lemma post_writes_S len out k :
  post_writes len out (S k) =
  post_writes len out k ++ [EvWrite k (transform_coeff len out k)].
Proof. unfold post_writes. rewrite seq_S, map_app. reflexivity. Qed.

Lemma transform_post_spec len out (s : state F) :
  exists v,
    transform_post len out s = (tt, State v (mem s), post_writes len out (len / 2 + 1)) /\
    length v = length (vector s) /\
    (forall i, i < len / 2 + 1 -> i < length (vector s) ->
       v !! i = Some (transform_coeff len out i)) /\
    (forall j, len / 2 + 1 <= j -> v !! j = vector s !! j).
Proof.
  unfold transform_post.
  pose proof (for_loop_inv
    (fun i (_ : unit) => vec_write i (transform_coeff len out i))
    (fun k _ s' t =>
       mem s' = mem s /\ t = post_writes len out k /\
       length (vector s') = length (vector s) /\
       (forall i, i < k -> i < length (vector s) ->
          vector s' !! i = Some (transform_coeff len out i)) /\
       (forall j, k <= j -> vector s' !! j = vector s !! j))
    (len / 2 + 1) 0 tt s) as Hinv.
  destruct (for_loop _ 0 (len / 2 + 1) tt s) as [[[] [v h]] t].
  unfold status_of, final, trace in Hinv; simpl in Hinv.
  destruct Hinv as (-> & -> & Hl & Hfill & Hrest).
  - split_and!; auto. intros; lia.
  - intros k _ s1 t1 Hk (Hm & -> & Hl & Hfill & Hrest).
    unfold vec_write; simpl. rewrite post_writes_S.
    split_and!; auto.
    + rewrite length_insert. exact Hl.
    + intros i Hi Hi'.
      destruct (decide (i = k)) as [->|Hne].
      * rewrite list_lookup_insert_eq by lia. reflexivity.
      * rewrite list_lookup_insert_ne by lia. apply Hfill; lia.
    + intros j Hj. rewrite list_lookup_insert_ne by lia. apply Hrest; lia.
  - exists v. split_and!; auto.
Qed.

(** *** Lines 112-116 *)

Lemma index_reads_S k : @index_reads F (S k) = index_reads k ++ [EvRead k].
Proof. unfold index_reads. rewrite seq_S, map_app. reflexivity. Qed.

Lemma inverse_pre_loop len (s : state F) :
  exists fin,
    for_loop (inverse_pre_body len) 0 len (replicate len cpx_zero) s =
      (fin, s, index_reads len) /\
    length fin = len /\
    (forall i, i < len -> fin !! i = Some (inverse_input len s i)).
Proof.
  pose proof (for_loop_inv (inverse_pre_body len)
    (fun k b s' t =>
       k <= len -> s' = s /\ t = index_reads k /\ length b = len /\
       (forall i, i < k -> b !! i = Some (inverse_input len s i)) /\
       (forall j, k <= j -> j < len -> b !! j = Some cpx_zero))
    len 0 (replicate len cpx_zero) s) as Hinv.
  destruct (for_loop _ 0 len _ s) as [[fin s'] t].
  unfold status_of, final, trace in Hinv; simpl in Hinv.
  destruct Hinv as (-> & -> & Hl & Hfill & _); [ | | lia | eauto ].
  - intros _. split_and!; auto.
    + apply length_replicate.
    + intros; lia.
    + intros j _ Hj. apply lookup_replicate_2. exact Hj.
  - intros k b s1 t1 Hk HI Hk'.
    destruct (HI ltac:(lia)) as (-> & -> & Hl & Hfill & Hrest).
    rewrite index_reads_S.
    unfold inverse_pre_body, bind, vec_read, ret; simpl.
    split_and!; auto.
    + rewrite length_insert. exact Hl.
    + intros i Hi.
      destruct (decide (i = k)) as [->|Hne].
      * rewrite list_lookup_insert_eq by lia.
        unfold bin_at. rewrite (Hrest k) by lia. reflexivity.
      * rewrite list_lookup_insert_ne by lia. apply Hfill; lia.
    + intros j Hj1 Hj2. rewrite list_lookup_insert_ne by lia. apply Hrest; lia.
Qed.

(** *** Lines 108-116 *)

Lemma inverse_pre_spec len (s : state F) :
  exists fin,
    inverse_pre len (replicate len cpx_zero) s =
      (fin, halved len s, halving len s ++ index_reads len) /\
    length fin = len /\
    (forall i, i < len -> fin !! i = Some (inverse_input len (halved len s) i)).
Proof.
  destruct (inverse_pre_loop len (halved len s)) as (fin & Hrun & Hl & Hfill).
  exists fin. split_and!; auto.
  unfold inverse_pre, halved, halving in *.
  destruct (Nat.ltb 0 len).
  - unfold bind at 1. unfold bind at 1. unfold vec_read, vec_write; simpl.
    fold (sample s 0). rewrite Hrun. reflexivity.
  - unfold bind, ret. rewrite Hrun. reflexivity.
Qed.

(** *** Lines 121-129 *)

Lemma post_loop_writes_S len out k :
  post_loop_writes len out (S k) =
  post_loop_writes len out k ++
    [EvWrite (k * 2 + 0) (cpx_r (bin_at out k));
     EvWrite (k * 2 + 1) (cpx_r (bin_at out (len - 1 - k)))].
Proof. unfold post_loop_writes. rewrite seq_S, flat_map_app. simpl. reflexivity. Qed.

Lemma inverse_post_loop len out (s : state F) n :
  exists v,
    for_loop (inverse_post_body len out) 0 n tt s =
      (tt, State v (mem s), post_loop_writes len out n) /\
    length v = length (vector s) /\
    (forall i, i < n ->
       (i * 2 < length (vector s) -> v !! (i * 2) = Some (cpx_r (bin_at out i))) /\
       (i * 2 + 1 < length (vector s) ->
          v !! (i * 2 + 1) = Some (cpx_r (bin_at out (len - 1 - i))))) /\
    (forall j, n * 2 <= j -> v !! j = vector s !! j).
Proof.
  pose proof (for_loop_inv (inverse_post_body len out)
    (fun k _ s' t =>
       mem s' = mem s /\ t = post_loop_writes len out k /\
       length (vector s') = length (vector s) /\
       (forall i, i < k ->
          (i * 2 < length (vector s) ->
             vector s' !! (i * 2) = Some (cpx_r (bin_at out i))) /\
          (i * 2 + 1 < length (vector s) ->
             vector s' !! (i * 2 + 1) = Some (cpx_r (bin_at out (len - 1 - i))))) /\
       (forall j, k * 2 <= j -> vector s' !! j = vector s !! j))
    n 0 tt s) as Hinv.
  destruct (for_loop _ 0 n tt s) as [[[] [v h]] t].
  unfold status_of, final, trace in Hinv; simpl in Hinv.
  destruct Hinv as (-> & -> & Hl & Hfill & Hrest).
  - split_and!; auto. intros; lia.
  - intros k _ s1 t1 Hk (Hm & -> & Hl & Hfill & Hrest).
    unfold inverse_post_body, bind, vec_write; simpl.
    rewrite post_loop_writes_S.
    split_and!; auto.
    + rewrite !length_insert. exact Hl.
    + intros i Hi.
      destruct (decide (i = k)) as [->|Hne].
      * split; intros Hb.
        -- rewrite list_lookup_insert_ne by lia.
           replace (k * 2 + 0) with (k * 2) by lia.
           rewrite list_lookup_insert_eq by lia. reflexivity.
        -- rewrite list_lookup_insert_eq by (rewrite length_insert; lia). reflexivity.
      * destruct (Hfill i ltac:(lia)) as [Ha Hb].
        split; intros Hc; rewrite !list_lookup_insert_ne by lia; auto.
    + intros j Hj. rewrite !list_lookup_insert_ne by lia. apply Hrest; lia.
  - exists v. split_and!; auto.
Qed.

Lemma inverse_post_spec len out (s : state F) :
  exists v,
    inverse_post len out s = (tt, State v (mem s), inverse_writes len out) /\
    length v = length (vector s) /\
    (len <= length (vector s) ->
       (forall i, i < len / 2 ->
          v !! (i * 2) = Some (cpx_r (bin_at out i)) /\
          v !! (i * 2 + 1) = Some (cpx_r (bin_at out (len - 1 - i)))) /\
       (len mod 2 = 1 -> v !! (len - 1) = Some (cpx_r (bin_at out (len / 2)))) /\
       (forall j, len <= j -> v !! j = vector s !! j)).
Proof.
  pose proof (Nat.div_mod_eq len 2) as Hdm.
  pose proof (Nat.mod_upper_bound len 2 ltac:(lia)) as Hmod.
  destruct (inverse_post_loop len out s (len / 2)) as (v & Hrun & Hl & Hfill & Hrest).
  unfold inverse_post, bind. rewrite Hrun. unfold inverse_writes.
  destruct (Nat.eqb_spec (len mod 2) 1) as [Hodd|Heven].
  - exists (<[len - 1 := cpx_r (bin_at out (len / 2))]> v).
    unfold vec_write; simpl. split_and!; auto.
    + rewrite length_insert. exact Hl.
    + intros Hcap. split_and!.
      * intros i Hi. rewrite !list_lookup_insert_ne by lia.
        destruct (Hfill i Hi) as [Ha Hb]. split; [apply Ha | apply Hb]; lia.
      * intros _. rewrite list_lookup_insert_eq by lia. reflexivity.
      * intros j Hj. rewrite list_lookup_insert_ne by lia. apply Hrest; lia.
  - exists v. unfold ret; simpl. rewrite app_nil_r. split_and!; auto.
    intros Hcap. split_and!.
    + intros i Hi. destruct (Hfill i Hi) as [Ha Hb]. split; [apply Ha | apply Hb]; lia.
    + intros Hodd. contradiction.
    + intros j Hj. apply Hrest; lia.
Qed.

(** [vector[0] /= 2] touches entry 0 and nothing else. *)
Lemma halved_mem len (s : state F) : mem (halved len s) = mem s.
Proof. unfold halved. destruct (Nat.ltb 0 len); reflexivity. Qed.

Lemma halved_length len (s : state F) :
  length (vector (halved len s)) = length (vector s).
Proof.
  unfold halved. destruct (Nat.ltb 0 len); [apply length_insert | reflexivity].
Qed.

Lemma halved_lookup len (s : state F) j :
  len <= j -> vector (halved len s) !! j = vector s !! j.
Proof.
  intros Hj. unfold halved. destruct (Nat.ltb_spec 0 len); [|reflexivity].
  simpl. apply list_lookup_insert_ne. lia.
Qed.

Lemma halved_heap len v h h' :
  vector (halved len (State v h)) = vector (halved len (State v h')).
Proof. unfold halved. destruct (Nat.ltb 0 len); reflexivity. Qed.

Lemma inverse_input_ext len (s s' : state F) i :
  vector s = vector s' -> inverse_input len s i = inverse_input len s' i.
Proof. intros Hv. unfold inverse_input, sample. rewrite Hv. reflexivity. Qed.
End PostFacts.

(** ** The runs of [ei::dct::transform] *)

Ltac heap_simpl := cbn [vector mem plan next_ptr live tracked fst snd].
Ltac alloc_ok := heap_simpl; rewrite ?answer_tail; assumption.

Section TransformRuns.
Context {F : Type} `{Float32 F} (X : Externals F).

(** The first [ei_dsp_calloc] is refused (lines 40-42). *)
Lemma transform_refused_out len (s : state F) :
  answer 0 (mem s) = false ->
  exists h,
    transform X len s =
      (EIDSP_OUT_OF_MEM X, State (vector s) h,
       [EvCalloc ((len / 2 + 1) * sizeof_fft_complex_t X) None]) /\
    same_resources (mem s) h.
Proof.
  intros H0. unfold transform, bind.
  rewrite calloc_refused by assumption. unfold ret.
  eexists. split; [reflexivity|]. split; reflexivity.
Qed.

(** The second [ei_dsp_calloc] is refused (lines 45-48). *)
Lemma transform_refused_in len (s : state F) :
  answer 0 (mem s) = true -> answer 1 (mem s) = false ->
  exists h,
    transform X len s =
      (EIDSP_OUT_OF_MEM X, State (vector s) h,
       [EvCalloc ((len / 2 + 1) * sizeof_fft_complex_t X) (Some (next_ptr (mem s)));
        EvCalloc (len * sizeof_float X) None;
        EvFree (next_ptr (mem s)) ((len / 2 + 1) * sizeof_fft_complex_t X)]) /\
    same_resources (mem s) h.
Proof.
  intros H0 H1. destruct s as [v [p n l z]]. unfold transform, bind.
  rewrite calloc_served by assumption. heap_simpl.
  rewrite calloc_refused by alloc_ok. heap_simpl.
  unfold ei_dsp_free, ret. heap_simpl. rewrite release_head.
  eexists. split; [reflexivity|]. split; heap_simpl; [reflexivity|lia].
Qed.

(** Both buffers are obtained (lines 50-75). *)
Lemma transform_served len (s : state F) :
  answer 0 (mem s) = true -> answer 1 (mem s) = true ->
  exists src r out v h t_post,
    transform X len s =
      (r, State v h,
       [EvCalloc ((len / 2 + 1) * sizeof_fft_complex_t X) (Some (next_ptr (mem s)));
        EvCalloc (len * sizeof_float X) (Some (S (next_ptr (mem s))))] ++
       pre_reads len ++ [EvRfft src r out] ++ t_post ++
       [EvFree (S (next_ptr (mem s))) (len * sizeof_float X);
        EvFree (next_ptr (mem s)) ((len / 2 + 1) * sizeof_fft_complex_t X)]) /\
    rfft X src len (replicate (len / 2 + 1) cpx_zero) (len / 2 + 1) len = (r, out) /\
    same_resources (mem s) h /\
    length src = len /\
    (forall i, i < len / 2 ->
       src !! i = Some (sample s (i * 2)) /\
       src !! (len - 1 - i) = Some (sample s (i * 2 + 1))) /\
    (len mod 2 = 1 -> src !! (len / 2) = Some (sample s (len - 1))) /\
    length v = length (vector s) /\
    (r <> 0%Z -> t_post = [] /\ v = vector s) /\
    (r = 0%Z ->
       t_post = post_writes len out (len / 2 + 1) /\
       (forall i, i < len / 2 + 1 -> i < length (vector s) ->
          v !! i = Some (transform_coeff len out i)) /\
       (forall j, len / 2 + 1 <= j -> v !! j = vector s !! j)).
Proof.
  intros H0 H1. destruct s as [v [p n l z]]. unfold transform, bind.
  rewrite calloc_served by assumption. heap_simpl.
  rewrite calloc_served by alloc_ok. heap_simpl.
  match goal with |- context [transform_pre len ?b ?s] =>
    destruct (transform_pre_spec len b s (length_replicate _ _))
      as (src & Hpre & Hl & Hfill & Hmid)
  end.
  rewrite Hpre. unfold call_rfft.
  destruct (rfft X src len (replicate (len / 2 + 1) cpx_zero) (len / 2 + 1) len)
    as [r out] eqn:Hr.
  destruct (Z.eqb_spec r 0) as [->|Hne]; cbn [negb].
  - match goal with |- context [transform_post len out ?s] =>
      destruct (transform_post_spec len out s) as (v' & Hpost & Hl' & Hw & Hk)
    end.
    rewrite Hpost. unfold ei_dsp_free, ret. heap_simpl. rewrite !release_head.
    exists src, 0%Z, out, v'. eexists. exists (post_writes len out (len / 2 + 1)).
    split_and!; try reflexivity; auto.
    + split; heap_simpl; [reflexivity | lia].
    + intros Hc. congruence.
  - unfold ei_dsp_free, ret. heap_simpl. rewrite !release_head.
    exists src, r, out, v. eexists. exists [].
    split_and!; try reflexivity; auto.
    + split; heap_simpl; [reflexivity | lia].
    + intros Hc. congruence.
Qed.
End TransformRuns.

(** ** The runs of [ei::dct::inverse_transform] *)

Section InverseRuns.
Context {F : Type} `{Float32 F} (X : Externals F).

(** The first [ei_dsp_calloc] is refused (lines 85-87). *)
Lemma inverse_refused_out len (s : state F) :
  answer 0 (mem s) = false ->
  exists h,
    inverse_transform X len s =
      (EIDSP_OUT_OF_MEM X, State (vector s) h,
       [EvCalloc (len * sizeof_kiss_fft_cpx X) None]) /\
    same_resources (mem s) h.
Proof.
  intros H0. unfold inverse_transform, bind.
  rewrite calloc_refused by assumption. unfold ret.
  eexists. split; [reflexivity|]. split; reflexivity.
Qed.

(** The second [ei_dsp_calloc] is refused (lines 90-93). *)
Lemma inverse_refused_in len (s : state F) :
  answer 0 (mem s) = true -> answer 1 (mem s) = false ->
  exists h,
    inverse_transform X len s =
      (EIDSP_OUT_OF_MEM X, State (vector s) h,
       [EvCalloc (len * sizeof_kiss_fft_cpx X) (Some (next_ptr (mem s)));
        EvCalloc (len * sizeof_kiss_fft_cpx X) None;
        EvFree (next_ptr (mem s)) (len * sizeof_kiss_fft_cpx X)]) /\
    same_resources (mem s) h.
Proof.
  intros H0 H1. destruct s as [v [p n l z]]. unfold inverse_transform, bind.
  rewrite calloc_served by assumption. heap_simpl.
  rewrite calloc_refused by alloc_ok. heap_simpl.
  unfold ei_dsp_free, ret. heap_simpl. rewrite release_head.
  eexists. split; [reflexivity|]. split; heap_simpl; [reflexivity|lia].
Qed.

(** [kiss_fft_alloc] is refused (lines 99-103). *)
Lemma inverse_refused_cfg len (s : state F) :
  answer 0 (mem s) = true -> answer 1 (mem s) = true -> answer 2 (mem s) = false ->
  exists h,
    inverse_transform X len s =
      (EIDSP_OUT_OF_MEM X, State (vector s) h,
       [EvCalloc (len * sizeof_kiss_fft_cpx X) (Some (next_ptr (mem s)));
        EvCalloc (len * sizeof_kiss_fft_cpx X) (Some (S (next_ptr (mem s))));
        EvCfgAlloc len None;
        EvFree (S (next_ptr (mem s))) (len * sizeof_kiss_fft_cpx X);
        EvFree (next_ptr (mem s)) (len * sizeof_kiss_fft_cpx X)]) /\
    same_resources (mem s) h.
Proof.
  intros H0 H1 H2. destruct s as [v [p n l z]]. unfold inverse_transform, bind.
  rewrite calloc_served by assumption. heap_simpl.
  rewrite calloc_served by alloc_ok. heap_simpl.
  rewrite cfg_refused by alloc_ok. heap_simpl.
  unfold ei_dsp_free, ret. heap_simpl. rewrite !release_head.
  eexists. split; [reflexivity|]. split; heap_simpl; [reflexivity|lia].
Qed.

(** Everything is obtained (lines 105-135). *)
Lemma inverse_served len (s : state F) :
  answer 0 (mem s) = true -> answer 1 (mem s) = true -> answer 2 (mem s) = true ->
  exists fin v h,
    let out := kiss_fft X len fin (replicate len cpx_zero) in
    inverse_transform X len s =
      (EIDSP_OK X, State v h,
       [EvCalloc (len * sizeof_kiss_fft_cpx X) (Some (next_ptr (mem s)));
        EvCalloc (len * sizeof_kiss_fft_cpx X) (Some (S (next_ptr (mem s))));
        EvCfgAlloc len (Some (S (S (next_ptr (mem s)))));
        EvRegister (kiss_fft_mem_length X len)] ++
       halving len s ++ index_reads len ++ [EvKissFft fin out] ++
       inverse_writes len out ++
       [EvFree (S (S (next_ptr (mem s)))) (kiss_fft_mem_length X len);
        EvFree (S (next_ptr (mem s))) (len * sizeof_kiss_fft_cpx X);
        EvFree (next_ptr (mem s)) (len * sizeof_kiss_fft_cpx X)]) /\
    same_resources (mem s) h /\
    length fin = len /\
    (forall i, i < len -> fin !! i = Some (inverse_input len (halved len s) i)) /\
    length v = length (vector s) /\
    (len <= length (vector s) ->
       (forall i, i < len / 2 ->
          v !! (i * 2) = Some (cpx_r (bin_at out i)) /\
          v !! (i * 2 + 1) = Some (cpx_r (bin_at out (len - 1 - i)))) /\
       (len mod 2 = 1 -> v !! (len - 1) = Some (cpx_r (bin_at out (len / 2)))) /\
       (forall j, len <= j -> v !! j = vector s !! j)).
Proof.
  intros H0 H1 H2. destruct s as [v [p n l z]]. unfold inverse_transform, bind.
  rewrite calloc_served by assumption. heap_simpl.
  rewrite calloc_served by alloc_ok. heap_simpl.
  rewrite cfg_served by alloc_ok. heap_simpl.
  unfold ei_dsp_register_alloc. heap_simpl.
  match goal with |- context [inverse_pre len _ ?s] =>
    destruct (inverse_pre_spec len s) as (fin & Hpre & Hl & Hfill)
  end.
  rewrite Hpre. unfold call_kiss_fft.
  set (out := kiss_fft X len fin (replicate len cpx_zero)).
  match goal with |- context [inverse_post len out ?s] =>
    destruct (inverse_post_spec len out s) as (v' & Hpost & Hl' & Hw)
  end.
  rewrite Hpost. unfold ei_dsp_free, ret. rewrite halved_mem. heap_simpl.
  rewrite !release_head.
  rewrite halved_length in Hl', Hw.
  exists fin, v'. eexists.
  split_and!; try reflexivity; auto.
  - cbn [app]. rewrite <- !app_assoc. reflexivity.
  - split; heap_simpl; [reflexivity | lia].
  - intros i Hi. rewrite (Hfill i Hi). f_equal. apply inverse_input_ext, halved_heap.
  - intros Hcap. destruct (Hw Hcap) as (Ha & Hb & Hc).
    split_and!; auto.
    intros j Hj. rewrite Hc by assumption. apply halved_lookup. exact Hj.
Qed.
End InverseRuns.

(** ** Traces *)

Section TraceFacts.
Context {F : Type} `{Float32 F}.

Lemma rfft_calls_app (t1 t2 : list (event F)) :
  rfft_calls (t1 ++ t2) = rfft_calls t1 ++ rfft_calls t2.
Proof.
  induction t1 as [|e t1 IH]; [reflexivity|].
  destruct e; simpl; rewrite IH; reflexivity.
Qed.

Lemma kiss_fft_calls_app (t1 t2 : list (event F)) :
  kiss_fft_calls (t1 ++ t2) = kiss_fft_calls t1 ++ kiss_fft_calls t2.
Proof.
  induction t1 as [|e t1 IH]; [reflexivity|].
  destruct e; simpl; rewrite IH; reflexivity.
Qed.

Lemma writes_app (t1 t2 : list (event F)) : writes (t1 ++ t2) = writes t1 ++ writes t2.
Proof. apply List.filter_app. Qed.

Lemma access_no_rfft (t : list (event F)) :
  Forall (fun e => access e = true) t -> rfft_calls t = [].
Proof. induction 1 as [|e t He _ IH]; [reflexivity|]. destruct e; try discriminate; exact IH. Qed.

Lemma access_no_kiss_fft (t : list (event F)) :
  Forall (fun e => access e = true) t -> kiss_fft_calls t = [].
Proof. induction 1 as [|e t He _ IH]; [reflexivity|]. destruct e; try discriminate; exact IH. Qed.

Lemma access_no_failure (X : Externals F) (t : list (event F)) e :
  Forall (fun e => access e = true) t -> In e t -> failure_of X e = None.
Proof.
  intros Hall Hin. rewrite List.Forall_forall in Hall. specialize (Hall e Hin).
  destruct e; try discriminate; reflexivity.
Qed.

Lemma reads_no_writes (t : list (event F)) :
  Forall (fun e => is_read e = true) t -> writes t = [].
Proof. induction 1 as [|e t He _ IH]; [reflexivity|]. destruct e; try discriminate; exact IH. Qed.

Lemma writes_all (t : list (event F)) :
  Forall (fun e => is_write e = true) t -> writes t = t.
Proof.
  induction 1 as [|e t He _ IH]; [reflexivity|].
  unfold writes in *. simpl. rewrite He, IH. reflexivity.
Qed.

Lemma reads_access (t : list (event F)) :
  Forall (fun e => is_read e = true) t -> Forall (fun e => access e = true) t.
Proof.
  intros Hall. eapply Forall_impl; [exact Hall|].
  intros e He. unfold access. rewrite He. reflexivity.
Qed.

Lemma writes_access (t : list (event F)) :
  Forall (fun e => is_write e = true) t -> Forall (fun e => access e = true) t.
Proof.
  intros Hall. eapply Forall_impl; [exact Hall|].
  intros e He. unfold access. rewrite He. apply orb_true_r.
Qed.

Lemma reads_quiet (t : list (event F)) :
  Forall (fun e => is_read e = true) t -> Forall (fun e => quiet e = true) t.
Proof.
  intros Hall. eapply Forall_impl; [exact Hall|].
  intros e He. destruct e; try discriminate; reflexivity.
Qed.

Lemma writes_follow_fft_quiet (t1 t2 : list (event F)) :
  Forall (fun e => quiet e = true) t1 ->
  writes_follow_fft (t1 ++ t2) = writes_follow_fft t2.
Proof. induction 1 as [|e t He _ IH]; [reflexivity|]. destruct e; try discriminate; exact IH. Qed.

(** The traces of the four loops. *)
Lemma pre_reads_read len : Forall (fun e : event F => is_read e = true) (pre_reads len).
Proof.
  unfold pre_reads. apply Forall_app. split.
  - unfold pre_loop_reads. generalize (seq 0 (len / 2)).
    induction l as [|i l IH]; simpl; repeat constructor; exact IH.
  - destruct (Nat.eqb (len mod 2) 1); repeat constructor.
Qed.

Lemma index_reads_read len : Forall (fun e : event F => is_read e = true) (index_reads len).
Proof.
  unfold index_reads. generalize (seq 0 len).
  induction l as [|i l IH]; simpl; constructor; [reflexivity | exact IH].
Qed.

Lemma post_writes_write len out k :
  Forall (fun e : event F => is_write e = true) (post_writes len out k).
Proof.
  unfold post_writes. generalize (seq 0 k).
  induction l as [|i l IH]; simpl; constructor; [reflexivity | exact IH].
Qed.

Lemma inverse_writes_write len out :
  Forall (fun e : event F => is_write e = true) (inverse_writes len out).
Proof.
  unfold inverse_writes. apply Forall_app. split.
  - unfold post_loop_writes. generalize (seq 0 (len / 2)).
    induction l as [|i l IH]; simpl; repeat constructor; exact IH.
  - destruct (Nat.eqb (len mod 2) 1); repeat constructor.
Qed.

Lemma halving_access len (s : state F) :
  Forall (fun e : event F => access e = true) (halving len s).
Proof. unfold halving. destruct (Nat.ltb 0 len); repeat constructor. Qed.
End TraceFacts.

Lemma lookup_map {A B} (f : A -> B) (l : list A) i :
  map f l !! i = option_map f (l !! i).
Proof.
  revert i. induction l as [|a l IH]; intros [|i]; simpl; auto.
Qed.

Lemma lookup_map_seq {B} (f : nat -> B) n k :
  k < n -> map f (seq 0 n) !! k = Some (f k).
Proof. intros Hk. rewrite lookup_map, lookup_seq_lt by exact Hk. reflexivity. Qed.

Lemma lookup_map_seq_ge {B} (f : nat -> B) n k :
  n <= k -> map f (seq 0 n) !! k = None.
Proof. intros Hk. rewrite lookup_map, lookup_seq_ge by exact Hk. reflexivity. Qed.

(** A bin that is in the buffer is the bin that is read. *)
Lemma bin_at_lookup {F} `{Float32 F} (buf : list (kiss_fft_cpx F)) i b :
  buf !! i = Some b -> bin_at buf i = b.
Proof. intros Hb. unfold bin_at. rewrite Hb. reflexivity. Qed.

(** ** Properties of [ei::dct::transform] *)

Section TransformClaims.
Context {F : Type} `{Float32 F} (X : Externals F).

(** C5. In [transform], when both scratch buffers are obtained, the real
    FFT is called once, on a buffer of [len] samples built from the caller's
    vector by interleaving: for every [i] in [0, len/2), position [i] holds
    [vector[2i]] and position [len-1-i] holds [vector[2i+1]]; when [len] is
    odd, position [len/2] holds [vector[len-1]]. *)
Theorem transform_fft_input_interleaved len (s : state F) :
  answer 0 (mem s) = true -> answer 1 (mem s) = true ->
  len <= length (vector s) ->
  exists src r out,
    rfft_calls (trace (transform X len s)) = [(src, r, out)] /\
    length src = len /\
    (forall i, i < len / 2 ->
       src !! i = vector s !! (i * 2) /\
       src !! (len - 1 - i) = vector s !! (i * 2 + 1)) /\
    (len mod 2 = 1 -> src !! (len / 2) = vector s !! (len - 1)).
Proof.
  intros H0 H1 Hcap.
  pose proof (Nat.div_mod_eq len 2) as Hdm.
  pose proof (Nat.mod_upper_bound len 2 ltac:(lia)) as Hmod.
  destruct (transform_served X len s H0 H1)
    as (src & r & out & v & h & t_post & Hrun & _ & _ & Hl & Hfill & Hmid & _ & Hfail & Hok).
  exists src, r, out. rewrite Hrun. unfold trace. cbn [snd].
  split_and!; auto.
  - rewrite !rfft_calls_app.
    rewrite (access_no_rfft (pre_reads len)) by apply reads_access, pre_reads_read.
    assert (rfft_calls t_post = []) as ->.
    { destruct (Z.eq_dec r 0%Z) as [Hr|Hr].
      - destruct (Hok Hr) as (-> & _). apply access_no_rfft, writes_access, post_writes_write.
      - destruct (Hfail Hr) as (-> & _). reflexivity. }
    reflexivity.
  - intros i Hi. destruct (Hfill i Hi) as [Ha Hb].
    rewrite Ha, Hb, !sample_lookup by lia. split; reflexivity.
  - intros Hodd. rewrite (Hmid Hodd), sample_lookup by lia. reflexivity.
Qed.

(** C6. In [transform], when the real FFT has returned 0 and left the bins
    [out] in its output buffer, the writes to the caller's vector are the
    stores [vector[i] = out[i].r * cos(temp) + out[i].i * sin(temp)] with
    [temp = i * M_PI / (len * 2)]: there are [len/2 + 1] of them, the
    [i]-th goes to index [i], and it stores the value built from the bin
    found at position [i] of [out]; afterwards entry [i <= len/2] holds
    that value and every entry beyond index [len/2] holds what it held
    before the call. *)
Theorem transform_writes_weighted_bins len (s : state F) src out :
  answer 0 (mem s) = true -> answer 1 (mem s) = true ->
  rfft_calls (trace (transform X len s)) = [(src, 0%Z, out)] ->
  rfft X src len (replicate (len / 2 + 1) cpx_zero) (len / 2 + 1) len = (0%Z, out) /\
  length (writes (trace (transform X len s))) = len / 2 + 1 /\
  (forall i e, writes (trace (transform X len s)) !! i = Some e ->
     exists x, e = EvWrite i x) /\
  (forall i b, i <= len / 2 -> out !! i = Some b ->
     writes (trace (transform X len s)) !! i =
       Some (EvWrite i (f_add (f_mul (cpx_r b) (f_cos (f_angle i len)))
                              (f_mul (cpx_i b) (f_sin (f_angle i len))))) /\
     (i < length (vector s) ->
      vector (final (transform X len s)) !! i =
        Some (f_add (f_mul (cpx_r b) (f_cos (f_angle i len)))
                    (f_mul (cpx_i b) (f_sin (f_angle i len)))))) /\
  (length out = len / 2 + 1 ->
   writes (trace (transform X len s)) =
     imap (fun i b =>
             EvWrite i (f_add (f_mul (cpx_r b) (f_cos (f_angle i len)))
                              (f_mul (cpx_i b) (f_sin (f_angle i len))))) out) /\
  (forall j, len / 2 < j ->
     vector (final (transform X len s)) !! j = vector s !! j).
Proof.
  intros H0 H1.
  destruct (transform_served X len s H0 H1)
    as (src' & r & out' & v & h & t_post & Hrun & Hrfft & _ & _ & _ & _ & _ & Hfail & Hok).
  rewrite Hrun. unfold trace, final. cbn [fst snd vector].
  intros Hcall. rewrite !rfft_calls_app in Hcall.
  rewrite (access_no_rfft (pre_reads len)) in Hcall by apply reads_access, pre_reads_read.
  cbn [rfft_calls app] in Hcall. injection Hcall as -> -> -> _.
  destruct (Hok eq_refl) as (-> & Hw & Hk).
  match goal with |- context [writes ?t] =>
    assert (Hwr : writes t = post_writes len out (len / 2 + 1))
  end.
  { rewrite !writes_app.
    rewrite (reads_no_writes (pre_reads len)) by apply pre_reads_read.
    rewrite (writes_all (post_writes _ _ _)) by apply post_writes_write.
    cbn. rewrite app_nil_r. reflexivity. }
  rewrite Hwr. unfold post_writes.
  split_and!.
  - exact Hrfft.
  - rewrite length_map, length_seq. reflexivity.
  - intros i e He.
    destruct (Nat.lt_ge_cases i (len / 2 + 1)) as [Hi|Hi].
    + rewrite lookup_map_seq in He by exact Hi. injection He as <-. eauto.
    + rewrite lookup_map_seq_ge in He by exact Hi. discriminate.
  - intros i b Hi Hb. split.
    + rewrite lookup_map_seq by lia. unfold transform_coeff.
      rewrite (bin_at_lookup out i b Hb). reflexivity.
    + intros Hi'. rewrite Hw by lia. unfold transform_coeff.
      rewrite (bin_at_lookup out i b Hb). reflexivity.
  - intros Hlen. apply list_eq. intros i. rewrite list_lookup_imap.
    destruct (Nat.lt_ge_cases i (len / 2 + 1)) as [Hi|Hi].
    + destruct (lookup_lt_is_Some_2 out i ltac:(lia)) as [b Hb].
      rewrite lookup_map_seq, Hb by exact Hi. unfold transform_coeff.
      rewrite (bin_at_lookup out i b Hb). reflexivity.
    + rewrite lookup_map_seq_ge by exact Hi.
      rewrite (lookup_ge_None_2 out i) by lia. reflexivity.
  - intros j Hj. apply Hk. lia.
Qed.
End TransformClaims.

(** ** Properties of [ei::dct::inverse_transform] *)

Section InverseClaims.
Context {F : Type} `{Float32 F} (X : Externals F).

(** C7. In [inverse_transform], when the three allocations are served, the
    complex FFT is called once and the caller's vector is rebuilt from the
    real parts of the bins [out] it returns: for every [i] in [0, len/2),
    [vector[2i]] holds the real part of the bin at position [i] of [out]
    and [vector[2i+1]] that of the bin at position [len-1-i]; when [len]
    is odd, [vector[len-1]] holds that of the bin at position [len/2]. *)
Theorem inverse_deinterleaves_real_parts len (s : state F) :
  answer 0 (mem s) = true -> answer 1 (mem s) = true -> answer 2 (mem s) = true ->
  len <= length (vector s) ->
  exists fin out,
    kiss_fft_calls (trace (inverse_transform X len s)) = [(fin, out)] /\
    out = kiss_fft X len fin (replicate len cpx_zero) /\
    (forall i b, i < len / 2 -> out !! i = Some b ->
       vector (final (inverse_transform X len s)) !! (i * 2) = Some (cpx_r b)) /\
    (forall i b, i < len / 2 -> out !! (len - 1 - i) = Some b ->
       vector (final (inverse_transform X len s)) !! (i * 2 + 1) = Some (cpx_r b)) /\
    (forall b, len mod 2 = 1 -> out !! (len / 2) = Some b ->
       vector (final (inverse_transform X len s)) !! (len - 1) = Some (cpx_r b)).
Proof.
  intros H0 H1 H2 Hcap.
  destruct (inverse_served X len s H0 H1 H2)
    as (fin & v & h & Hrun & _ & _ & _ & _ & Hv).
  cbv zeta in Hrun, Hv. destruct (Hv Hcap) as (Hpairs & Hmid & _).
  exists fin, (kiss_fft X len fin (replicate len cpx_zero)).
  rewrite Hrun. unfold trace, final. cbn [fst snd vector].
  split_and!.
  - rewrite !kiss_fft_calls_app.
    rewrite (access_no_kiss_fft (halving len s)) by apply halving_access.
    rewrite (access_no_kiss_fft (index_reads len)) by apply reads_access, index_reads_read.
    rewrite (access_no_kiss_fft (inverse_writes _ _))
      by apply writes_access, inverse_writes_write.
    reflexivity.
  - reflexivity.
  - intros i b Hi Hb. destruct (Hpairs i Hi) as [-> _].
    rewrite (bin_at_lookup _ _ _ Hb). reflexivity.
  - intros i b Hi Hb. destruct (Hpairs i Hi) as [_ ->].
    rewrite (bin_at_lookup _ _ _ Hb). reflexivity.
  - intros b Hodd Hb. rewrite (Hmid Hodd), (bin_at_lookup _ _ _ Hb). reflexivity.
Qed.

(** C9. In [inverse_transform], when the three allocations are served, the
    complex FFT is called on [len] samples; sample [i] has real part
    [vector[i] * cos(i * M_PI / (len * 2))], where [vector[0]] has already
    been halved, and imaginary part [0 * -sin(i * M_PI / (len * 2))], the
    zero of the fresh buffer times the sine factor, which is zero in an
    arithmetic where zero absorbs products. *)
Theorem inverse_fft_input_real_weighted len (s : state F) :
  (forall y : F, f_mul f_zero y = f_zero) ->
  answer 0 (mem s) = true -> answer 1 (mem s) = true -> answer 2 (mem s) = true ->
  len <= length (vector s) ->
  exists fin out,
    kiss_fft_calls (trace (inverse_transform X len s)) = [(fin, out)] /\
    length fin = len /\
    forall i, i < len ->
      exists x z,
        <[0 := f_half (sample s 0)]> (vector s) !! i = Some x /\
        fin !! i = Some z /\
        cpx_r z = f_mul x (f_cos (f_angle i len)) /\
        cpx_i z = f_mul f_zero (f_neg (f_sin (f_angle i len))) /\
        cpx_i z = f_zero.
Proof.
  intros Hzero H0 H1 H2 Hcap.
  destruct (inverse_served X len s H0 H1 H2)
    as (fin & v & h & Hrun & _ & Hl & Hfin & _ & _).
  cbv zeta in Hrun.
  exists fin, (kiss_fft X len fin (replicate len cpx_zero)).
  rewrite Hrun. unfold trace. cbn [snd].
  split_and!; auto.
  - rewrite !kiss_fft_calls_app.
    rewrite (access_no_kiss_fft (halving len s)) by apply halving_access.
    rewrite (access_no_kiss_fft (index_reads len)) by apply reads_access, index_reads_read.
    rewrite (access_no_kiss_fft (inverse_writes _ _)) by apply writes_access, inverse_writes_write.
    reflexivity.
  - intros i Hi. rewrite (Hfin i Hi).
    exists (sample (halved len s) i), (inverse_input len (halved len s) i).
    split_and!; auto.
    + unfold halved. destruct (Nat.ltb_spec 0 len) as [_|Hlen]; [|lia].
      apply (sample_lookup (State _ (mem s))).
      change (i < length (<[0 := f_half (sample s 0)]> (vector s))).
      rewrite length_insert. lia.
    + apply Hzero.
Qed.

(** C10. Once the two scratch buffers and the FFT configuration are
    obtained, [inverse_transform] returns [EIDSP_OK], whatever the complex
    FFT does: [kiss_fft] reports nothing that could be passed on. *)
Theorem inverse_returns_ok_once_allocated len (s : state F) :
  answer 0 (mem s) = true -> answer 1 (mem s) = true -> answer 2 (mem s) = true ->
  status_of (inverse_transform X len s) = EIDSP_OK X.
Proof.
  intros H0 H1 H2.
  destruct (inverse_served X len s H0 H1 H2) as (fin & v & h & Hrun & _).
  cbv zeta in Hrun. rewrite Hrun. reflexivity.
Qed.
End InverseClaims.

(** ** Error exits, ordering of writes, and length 0 *)

Ltac split_in Hin :=
  rewrite ?in_app_iff in Hin; cbn [In] in Hin;
  repeat match type of Hin with _ \/ _ => destruct Hin as [Hin|Hin] end.

Section ExitClaims.
Context {F : Type} `{Float32 F} (X : Externals F).

Lemma transform_error_exit len (s : state F) e code :
  In e (trace (transform X len s)) -> failure_of X e = Some code ->
  status_of (transform X len s) = code /\
  same_resources (mem s) (mem (final (transform X len s))) /\
  vector (final (transform X len s)) = vector s.
Proof.
  intros Hin Hf.
  destruct (answer 0 (mem s)) eqn:H0.
  - destruct (answer 1 (mem s)) eqn:H1.
    + destruct (transform_served X len s H0 H1)
        as (src & r & out & v & h & t_post & Hrun & _ & Hres & _ & _ & _ & _ & Hfail & Hok).
      rewrite Hrun in *. unfold trace, status_of, final in *. cbn [fst snd vector mem] in *.
      split_in Hin; try (subst e; discriminate); try contradiction.
      * rewrite (access_no_failure X _ e (reads_access _ (pre_reads_read len)) Hin) in Hf.
        discriminate.
      * subst e. cbn [failure_of] in Hf.
        destruct (Z.eqb_spec r 0) as [Hr|Hr]; [discriminate|].
        injection Hf as <-. destruct (Hfail Hr) as (_ & ->). auto.
      * destruct (Z.eq_dec r 0%Z) as [Hr|Hr].
        -- destruct (Hok Hr) as (-> & _).
           rewrite (access_no_failure X _ e (writes_access _ (post_writes_write _ _ _)) Hin) in Hf.
           discriminate.
        -- destruct (Hfail Hr) as (-> & _). contradiction.
    + destruct (transform_refused_in X len s H0 H1) as (h & Hrun & Hres).
      rewrite Hrun in *. unfold trace, status_of, final in *. cbn [fst snd vector mem] in *.
      split_in Hin; try (subst e; discriminate); try contradiction.
      subst e. injection Hf as <-. auto.
  - destruct (transform_refused_out X len s H0) as (h & Hrun & Hres).
    rewrite Hrun in *. unfold trace, status_of, final in *. cbn [fst snd vector mem] in *.
    split_in Hin; try contradiction.
    subst e. injection Hf as <-. auto.
Qed.

Lemma inverse_error_exit len (s : state F) e code :
  In e (trace (inverse_transform X len s)) -> failure_of X e = Some code ->
  status_of (inverse_transform X len s) = code /\
  same_resources (mem s) (mem (final (inverse_transform X len s))) /\
  vector (final (inverse_transform X len s)) = vector s.
Proof.
  intros Hin Hf.
  destruct (answer 0 (mem s)) eqn:H0.
  - destruct (answer 1 (mem s)) eqn:H1.
    + destruct (answer 2 (mem s)) eqn:H2.
      * destruct (inverse_served X len s H0 H1 H2) as (fin & v & h & Hrun & _).
        cbv zeta in Hrun. rewrite Hrun in Hin. unfold trace in Hin. cbn [snd] in Hin.
        split_in Hin; try (subst e; discriminate); try contradiction.
        -- rewrite (access_no_failure X _ e (halving_access len s) Hin) in Hf. discriminate.
        -- rewrite (access_no_failure X _ e (reads_access _ (index_reads_read len)) Hin) in Hf.
           discriminate.
        -- rewrite (access_no_failure X _ e (writes_access _ (inverse_writes_write _ _)) Hin) in Hf.
           discriminate.
      * destruct (inverse_refused_cfg X len s H0 H1 H2) as (h & Hrun & Hres).
        rewrite Hrun in *. unfold trace, status_of, final in *. cbn [fst snd vector mem] in *.
        split_in Hin; try (subst e; discriminate); try contradiction.
        subst e. injection Hf as <-. auto.
    + destruct (inverse_refused_in X len s H0 H1) as (h & Hrun & Hres).
      rewrite Hrun in *. unfold trace, status_of, final in *. cbn [fst snd vector mem] in *.
      split_in Hin; try (subst e; discriminate); try contradiction.
      subst e. injection Hf as <-. auto.
  - destruct (inverse_refused_out X len s H0) as (h & Hrun & Hres).
    rewrite Hrun in *. unfold trace, status_of, final in *. cbn [fst snd vector mem] in *.
    split_in Hin; try contradiction.
    subst e. injection Hf as <-. auto.
Qed.

(** C8. On every error exit of [transform] and [inverse_transform] (a
    refused scratch allocation, a refused FFT configuration, or a non-zero
    status of the real FFT) the call returns the status of that error
    ([EIDSP_OUT_OF_MEM], or the status of the FFT), holds no block and no
    ledger entry that it did not hold before the call, and leaves the
    caller's vector as it was. *)
Theorem error_exits_report_and_release len (s : state F) e code :
  failure_of X e = Some code ->
  (In e (trace (transform X len s)) ->
     status_of (transform X len s) = code /\
     same_resources (mem s) (mem (final (transform X len s))) /\
     vector (final (transform X len s)) = vector s) /\
  (In e (trace (inverse_transform X len s)) ->
     status_of (inverse_transform X len s) = code /\
     same_resources (mem s) (mem (final (inverse_transform X len s))) /\
     vector (final (inverse_transform X len s)) = vector s).
Proof.
  intros Hf. split; intros Hin.
  - apply (transform_error_exit len s e code Hin Hf).
  - apply (inverse_error_exit len s e code Hin Hf).
Qed.
End ExitClaims.

Section OrderClaims.
Context {F : Type} `{Float32 F} (X : Externals F).

Lemma transform_writes_follow_rfft len (s : state F) :
  writes_follow_fft (trace (transform X len s)) = true /\
  (status_of (transform X len s) <> 0%Z ->
   vector (final (transform X len s)) = vector s).
Proof.
  destruct (answer 0 (mem s)) eqn:H0.
  - destruct (answer 1 (mem s)) eqn:H1.
    + destruct (transform_served X len s H0 H1)
        as (src & r & out & v & h & t_post & Hrun & _ & _ & _ & _ & _ & _ & Hfail & Hok).
      rewrite Hrun. unfold trace, status_of, final. cbn [fst snd vector].
      split.
      * cbn [app writes_follow_fft].
        rewrite writes_follow_fft_quiet by apply reads_quiet, pre_reads_read.
        cbn [app writes_follow_fft].
        destruct (Z.eqb_spec r 0) as [Hr|Hr]; [reflexivity|].
        destruct (Hfail Hr) as (-> & _). reflexivity.
      * intros Hr. apply Hfail. exact Hr.
    + destruct (transform_refused_in X len s H0 H1) as (h & -> & _).
      split; [reflexivity | intros _; reflexivity].
  - destruct (transform_refused_out X len s H0) as (h & -> & _).
    split; [reflexivity | intros _; reflexivity].
Qed.

(** C3, as the code has it. In [transform] no write to the caller's vector
    comes before the real FFT has returned 0, and a call that returns a
    non-zero status leaves the vector as it was. In [inverse_transform],
    when the three allocations are served, [vector[0]] is halved before the
    complex FFT is called (for [len > 0]; no other write precedes the call),
    and the writes after the call are those of the de-interleaving; the
    complex FFT reports no status. *)
Theorem writes_relative_to_fft len (s : state F) :
  (writes_follow_fft (trace (transform X len s)) = true /\
   (status_of (transform X len s) <> 0%Z ->
    vector (final (transform X len s)) = vector s)) /\
  (answer 0 (mem s) = true -> answer 1 (mem s) = true -> answer 2 (mem s) = true ->
   exists pre fin out post,
     trace (inverse_transform X len s) = pre ++ EvKissFft fin out :: post /\
     kiss_fft_calls pre = [] /\
     kiss_fft_calls post = [] /\
     writes pre = (if Nat.ltb 0 len then [EvWrite 0 (f_half (sample s 0))] else []) /\
     writes post = inverse_writes len out).
Proof.
  split; [apply transform_writes_follow_rfft|].
  intros H0 H1 H2.
  destruct (inverse_served X len s H0 H1 H2) as (fin & v & h & Hrun & _).
  cbv zeta in Hrun. rewrite Hrun. unfold trace. cbn [snd].
  set (out := kiss_fft X len fin (replicate len cpx_zero)).
  match goal with
  | |- context [?a ++ halving len s ++ index_reads len ++ [EvKissFft fin out] ++
                inverse_writes len out ++ ?b] =>
      exists (a ++ halving len s ++ index_reads len), fin, out, (inverse_writes len out ++ b)
  end.
  split_and!.
  - rewrite <- !app_assoc. reflexivity.
  - rewrite !kiss_fft_calls_app.
    rewrite (access_no_kiss_fft (halving len s)) by apply halving_access.
    rewrite (access_no_kiss_fft (index_reads len)) by apply reads_access, index_reads_read.
    reflexivity.
  - rewrite kiss_fft_calls_app.
    rewrite (access_no_kiss_fft (inverse_writes _ _)) by apply writes_access, inverse_writes_write.
    reflexivity.
  - rewrite !writes_app.
    rewrite (reads_no_writes (index_reads len)) by apply index_reads_read.
    unfold halving. destruct (Nat.ltb 0 len); reflexivity.
  - rewrite writes_app.
    rewrite (writes_all (inverse_writes _ _)) by apply inverse_writes_write.
    cbn. apply app_nil_r.
Qed.

(** C4, for [transform]. With [len = 0] the loop of lines 67-70 still runs
    once: when both allocations are served and [transform] returns 0, the
    real FFT was called on an empty input and returned 0, and the one
    access of the call to the caller's vector is the store of the weighted
    bin 0 to [vector[0]]. So for [len = 0] a successful [transform] has
    written to the vector. *)
Theorem transform_len0_stores_entry0 (s : state F) :
  answer 0 (mem s) = true -> answer 1 (mem s) = true ->
  status_of (transform X 0 s) = 0%Z ->
  exists out,
    rfft_calls (trace (transform X 0 s)) = [([], 0%Z, out)] /\
    accesses (trace (transform X 0 s)) = [EvWrite 0 (transform_coeff 0 out 0)].
Proof.
  intros H0 H1. destruct s as [v [p n l z]]. unfold transform, bind.
  rewrite calloc_served by assumption. heap_simpl.
  rewrite calloc_served by alloc_ok. heap_simpl.
  unfold transform_pre, transform_post, call_rfft, bind.
  change (0 / 2) with 0. change (0 mod 2) with 0.
  cbn [for_loop Nat.eqb ret replicate Nat.add].
  destruct (rfft X [] 0 [cpx_zero] 1 0) as [r out].
  destruct (Z.eqb_spec r 0) as [->|Hr]; cbn [negb for_loop];
    unfold bind, vec_write, ei_dsp_free, ret, status_of; cbn [fst snd].
  - intros _. exists out. split; reflexivity.
  - intros Hst. contradiction.
Qed.

(** With [len = 0] and the three allocations served, [inverse_transform]
    returns [EIDSP_OK] without reading or writing the caller's vector: the
    guard of line 108 skips the halving. *)
Theorem inverse_len0_untouched (s : state F) :
  answer 0 (mem s) = true -> answer 1 (mem s) = true -> answer 2 (mem s) = true ->
  status_of (inverse_transform X 0 s) = EIDSP_OK X /\
  accesses (trace (inverse_transform X 0 s)) = [] /\
  vector (final (inverse_transform X 0 s)) = vector s.
Proof.
  intros H0 H1 H2. destruct s as [v [p n l z]]. unfold inverse_transform, bind.
  rewrite calloc_served by assumption. heap_simpl.
  rewrite calloc_served by alloc_ok. heap_simpl.
  rewrite cfg_served by alloc_ok. heap_simpl.
  unfold inverse_pre, inverse_post, call_kiss_fft, ei_dsp_register_alloc, bind.
  change (0 / 2) with 0. change (0 mod 2) with 0.
  cbn [for_loop Nat.eqb Nat.ltb Nat.leb ret replicate].
  unfold ei_dsp_free, ret. split_and!; reflexivity.
Qed.
(** On every path, error or not, [transform] and [inverse_transform]
    return holding no block and no ledger entry beyond those held before
    the call. *)
Theorem every_exit_releases len (s : state F) :
  same_resources (mem s) (mem (final (transform X len s))) /\
  same_resources (mem s) (mem (final (inverse_transform X len s))).
Proof.
  split.
  - destruct (answer 0 (mem s)) eqn:H0; [destruct (answer 1 (mem s)) eqn:H1|].
    + destruct (transform_served X len s H0 H1)
        as (src & r & out & v & h & t_post & -> & _ & Hres & _). exact Hres.
    + destruct (transform_refused_in X len s H0 H1) as (h & -> & Hres). exact Hres.
    + destruct (transform_refused_out X len s H0) as (h & -> & Hres). exact Hres.
  - destruct (answer 0 (mem s)) eqn:H0; [destruct (answer 1 (mem s)) eqn:H1|];
      [destruct (answer 2 (mem s)) eqn:H2| |].
    + destruct (inverse_served X len s H0 H1 H2) as (fin & v & h & Hrun & Hres & _).
      cbv zeta in Hrun. rewrite Hrun. exact Hres.
    + destruct (inverse_refused_cfg X len s H0 H1 H2) as (h & -> & Hres). exact Hres.
    + destruct (inverse_refused_in X len s H0 H1) as (h & -> & Hres). exact Hres.
    + destruct (inverse_refused_out X len s H0) as (h & -> & Hres). exact Hres.
Qed.
End OrderClaims.

(** ** The theorems at concrete inputs *)

Lemma transform_fft_input_interleaved_witness :
  exists src r out,
    rfft_calls (trace (transform (sym_externals 0) 5 (sym_state 5 []))) = [(src, r, out)] /\
    length src = 5 /\
    (forall i, i < 5 / 2 ->
       src !! i = vector (sym_state 5 []) !! (i * 2) /\
       src !! (5 - 1 - i) = vector (sym_state 5 []) !! (i * 2 + 1)) /\
    (5 mod 2 = 1 -> src !! (5 / 2) = vector (sym_state 5 []) !! (5 - 1)).
Proof.
  apply (transform_fft_input_interleaved (sym_externals 0) 5 (sym_state 5 []));
    [reflexivity | reflexivity | vm_compute; lia].
Defined.

Lemma transform_writes_weighted_bins_witness :
  writes (trace (transform (sym_externals 0) 5 (sym_state 5 []))) =
    [EvWrite 0 (SAdd (SMul (SRfftRe 0) (SCos (SAngle 0 5)))
                     (SMul (SRfftIm 0) (SSin (SAngle 0 5))));
     EvWrite 1 (SAdd (SMul (SRfftRe 1) (SCos (SAngle 1 5)))
                     (SMul (SRfftIm 1) (SSin (SAngle 1 5))));
     EvWrite 2 (SAdd (SMul (SRfftRe 2) (SCos (SAngle 2 5)))
                     (SMul (SRfftIm 2) (SSin (SAngle 2 5))))] /\
  vector (final (transform (sym_externals 0) 5 (sym_state 5 []))) !! 2 =
    Some (SAdd (SMul (SRfftRe 2) (SCos (SAngle 2 5)))
               (SMul (SRfftIm 2) (SSin (SAngle 2 5)))) /\
  vector (final (transform (sym_externals 0) 5 (sym_state 5 []))) !! 3 = Some (SIn 3).
Proof.
  destruct (transform_writes_weighted_bins (sym_externals 0) 5 (sym_state 5 [])
              (map SIn [0; 2; 4; 3; 1]) (sym_bins 3) eq_refl eq_refl eq_refl)
    as (_ & _ & _ & Hbin & Hall & Hup).
  split; [exact (Hall eq_refl)|]. split.
  - exact (proj2 (Hbin 2 (Cpx (SRfftRe 2) (SRfftIm 2)) ltac:(vm_compute; lia) eq_refl)
             ltac:(vm_compute; lia)).
  - exact (Hup 3 ltac:(vm_compute; lia)).
Defined.

Lemma inverse_deinterleaves_real_parts_witness :
  vector (final (inverse_transform (sym_externals 0) 5 (sym_state 5 []))) !! 0 =
    Some (SFftRe 0) /\
  vector (final (inverse_transform (sym_externals 0) 5 (sym_state 5 []))) !! 1 =
    Some (SFftRe 4) /\
  vector (final (inverse_transform (sym_externals 0) 5 (sym_state 5 []))) !! 2 =
    Some (SFftRe 1) /\
  vector (final (inverse_transform (sym_externals 0) 5 (sym_state 5 []))) !! 3 =
    Some (SFftRe 3) /\
  vector (final (inverse_transform (sym_externals 0) 5 (sym_state 5 []))) !! 4 =
    Some (SFftRe 2).
Proof.
  destruct (inverse_deinterleaves_real_parts (sym_externals 0) 5 (sym_state 5 [])
              eq_refl eq_refl eq_refl ltac:(vm_compute; lia))
    as (fin & out & _ & -> & Heven & Hodd & Hmid).
  split_and!.
  - exact (Heven 0 (Cpx (SFftRe 0) (SFftIm 0)) ltac:(vm_compute; lia) eq_refl).
  - exact (Hodd 0 (Cpx (SFftRe 4) (SFftIm 4)) ltac:(vm_compute; lia) eq_refl).
  - exact (Heven 1 (Cpx (SFftRe 1) (SFftIm 1)) ltac:(vm_compute; lia) eq_refl).
  - exact (Hodd 1 (Cpx (SFftRe 3) (SFftIm 3)) ltac:(vm_compute; lia) eq_refl).
  - exact (Hmid (Cpx (SFftRe 2) (SFftIm 2)) eq_refl eq_refl).
Defined.

Lemma inverse_returns_ok_once_allocated_witness :
  status_of (inverse_transform (sym_externals 0) 5 (sym_state 5 [true; true; true])) = 0%Z.
Proof.
  apply (inverse_returns_ok_once_allocated (sym_externals 0) 5 (sym_state 5 [true; true; true]));
    reflexivity.
Defined.

Lemma error_exits_report_and_release_witness :
  (status_of (transform (sym_externals 7) 4 (sym_state 4 [])) = 7%Z /\
   same_resources (mem (sym_state 4 []))
     (mem (final (transform (sym_externals 7) 4 (sym_state 4 [])))) /\
   vector (final (transform (sym_externals 7) 4 (sym_state 4 []))) =
     vector (sym_state 4 [])) /\
  (status_of (inverse_transform (sym_externals 0) 4 (sym_state 4 [true; true; false])) =
     (-1002)%Z /\
   same_resources (mem (sym_state 4 [true; true; false]))
     (mem (final (inverse_transform (sym_externals 0) 4 (sym_state 4 [true; true; false])))) /\
   vector (final (inverse_transform (sym_externals 0) 4 (sym_state 4 [true; true; false]))) =
     vector (sym_state 4 [true; true; false])).
Proof.
  split.
  - apply (proj1 (error_exits_report_and_release (sym_externals 7) 4 (sym_state 4 [])
                    (EvRfft (map SIn [0; 2; 3; 1]) 7 (replicate 3 cpx_zero)) 7 eq_refl)).
    vm_compute. tauto.
  - apply (proj2 (error_exits_report_and_release (sym_externals 0) 4
                    (sym_state 4 [true; true; false]) (EvCfgAlloc 4 None) (-1002) eq_refl)).
    vm_compute. tauto.
Defined.

Lemma writes_relative_to_fft_witness :
  writes_follow_fft (trace (transform (sym_externals 0) 5 (sym_state 5 []))) = true /\
  exists pre fin out post,
    trace (inverse_transform (sym_externals 0) 5 (sym_state 5 [])) =
      pre ++ EvKissFft fin out :: post /\
    kiss_fft_calls pre = [] /\
    kiss_fft_calls post = [] /\
    writes pre = [EvWrite 0 (SHalf (SIn 0))] /\
    writes post = inverse_writes 5 out.
Proof.
  split.
  - apply (proj1 (proj1 (writes_relative_to_fft (sym_externals 0) 5 (sym_state 5 [])))).
  - exact (proj2 (writes_relative_to_fft (sym_externals 0) 5 (sym_state 5 []))
             eq_refl eq_refl eq_refl).
Defined.

(** C3, as stated, fails for [inverse_transform]: with one sample the
    store of [vector[0] / 2] is in the trace before the complex FFT. *)
Lemma inverse_writes_before_fft :
  writes_follow_fft (trace (inverse_transform (sym_externals 0) 1 (sym_state 1 []))) = false /\
  trace (inverse_transform (sym_externals 0) 1 (sym_state 1 [])) =
    [EvCalloc 8 (Some 100); EvCalloc 8 (Some 101); EvCfgAlloc 1 (Some 102); EvRegister 272;
     EvRead 0; EvWrite 0 (SHalf (SIn 0)); EvRead 0;
     EvKissFft [Cpx (SMul (SHalf (SIn 0)) (SCos (SAngle 0 1)))
                    (SMul SZero (SNeg (SSin (SAngle 0 1))))]
               [Cpx (SFftRe 0) (SFftIm 0)];
     EvWrite 0 (SFftRe 0);
     EvFree 102 272; EvFree 101 8; EvFree 100 8].
Proof. split; reflexivity. Qed.

Lemma inverse_len0_untouched_witness :
  status_of (inverse_transform (sym_externals 0) 0 (sym_state 0 [])) = 0%Z /\
  accesses (trace (inverse_transform (sym_externals 0) 0 (sym_state 0 []))) = [] /\
  vector (final (inverse_transform (sym_externals 0) 0 (sym_state 0 []))) =
    vector (sym_state 0 []).
Proof.
  exact (inverse_len0_untouched (sym_externals 0) (sym_state 0 []) eq_refl eq_refl eq_refl).
Defined.

Lemma transform_len0_stores_entry0_witness :
  exists out,
    rfft_calls (trace (transform (sym_externals 0) 0 (sym_state 0 []))) = [([], 0%Z, out)] /\
    accesses (trace (transform (sym_externals 0) 0 (sym_state 0 []))) =
      [EvWrite 0 (transform_coeff 0 out 0)].
Proof.
  exact (transform_len0_stores_entry0 (sym_externals 0) (sym_state 0 [])
           eq_refl eq_refl eq_refl).
Defined.

(** ** Exact arithmetic *)

Lemma inverse_fft_input_real_weighted_witness :
  exists fin out,
    kiss_fft_calls (trace (inverse_transform exact_externals 3 (State [1; 2; 3]%R fresh_heap))) =
      [(fin, out)] /\
    length fin = 3 /\
    forall i, i < 3 ->
      exists x z,
        <[0 := (1 / 2)%R]> [1; 2; 3]%R !! i = Some x /\
        fin !! i = Some z /\
        cpx_r z = (x * cos (INR i * PI / INR (3 * 2)))%R /\
        cpx_i z = (0 * - sin (INR i * PI / INR (3 * 2)))%R /\
        cpx_i z = 0%R.
Proof.
  exact (inverse_fft_input_real_weighted exact_externals 3 (State [1; 2; 3]%R fresh_heap)
           Rmult_0_l eq_refl eq_refl eq_refl ltac:(simpl; lia)).
Defined.

(** *** Finite sums *)

Lemma Rsum_ext f g n :
  (forall i, i < n -> f i = g i) -> Rsum f n = Rsum g n.
Proof.
  induction n as [|n IH]; intros Hfg; [reflexivity|].
  simpl. rewrite IH by (intros i Hi; apply Hfg; lia).
  rewrite Hfg by lia. reflexivity.
Qed.

Lemma Rsum_plus f g n :
  Rsum (fun i => f i + g i)%R n = (Rsum f n + Rsum g n)%R.
Proof. induction n as [|n IH]; simpl; [lra | rewrite IH; lra]. Qed.

Lemma Rsum_scal_r f c n :
  Rsum (fun i => f i * c)%R n = (Rsum f n * c)%R.
Proof. induction n as [|n IH]; simpl; [lra | rewrite IH; lra]. Qed.

Lemma Rsum_app f n m :
  Rsum f (n + m) = (Rsum f n + Rsum (fun j => f (n + j)%nat) m)%R.
Proof.
  induction m as [|m IH]; simpl.
  - rewrite Nat.add_0_r. lra.
  - rewrite Nat.add_succ_r. simpl. rewrite IH. lra.
Qed.

Lemma Rsum_shift f n :
  Rsum f (S n) = (f 0%nat + Rsum (fun j => f (S j)) n)%R.
Proof.
  change (S n) with (1 + n). rewrite Rsum_app. simpl. lra.
Qed.

Lemma Rsum_rev f n :
  Rsum (fun i => f (n - 1 - i)) n = Rsum f n.
Proof.
  revert f. induction n as [|n IH]; intros f; [reflexivity|].
  rewrite (Rsum_shift f n). cbn [Rsum].
  replace (S n - 1 - n) with 0 by lia.
  rewrite (Rsum_ext (fun i => f (S n - 1 - i)) (fun i => f (S (n - 1 - i))) n)
    by (intros i Hi; f_equal; lia).
  rewrite (IH (fun j => f (S j))). lra.
Qed.

Lemma Rsum_even_odd f h :
  Rsum f (h * 2) = (Rsum (fun i => f (i * 2)%nat) h + Rsum (fun i => f (i * 2 + 1)%nat) h)%R.
Proof.
  induction h as [|h IH]; simpl; [lra|].
  replace (S h * 2) with (S (S (h * 2))) by lia. simpl.
  rewrite IH. replace (h * 2 + 1) with (S (h * 2)) by lia. lra.
Qed.

(** *** The weighted bins of the interleaved input are DCT-II coefficients *)

Lemma cos_minus_turns x k : cos (- x + 2 * INR k * PI) = cos x.
Proof. rewrite cos_period. apply cos_neg. Qed.

(** A sum whose low half follows the even terms of another, whose high
    half follows its odd terms backwards, and whose middle term (for an odd
    length) follows its last term. *)
Lemma Rsum_interleaved (f g : nat -> R) n h :
  n = h * 2 \/ n = S (h * 2) ->
  (forall i, i < h -> f i = g (i * 2)) ->
  (forall i, i < h -> f (n - 1 - i) = g (i * 2 + 1)) ->
  (n = S (h * 2) -> f h = g (h * 2)) ->
  Rsum f n = Rsum g n.
Proof.
  intros Hn Hlow Hhigh Hmid.
  assert (Hrev : forall c, (forall i, i < h -> c + (h - 1 - i) = n - 1 - i) ->
            Rsum (fun j => f (c + j)%nat) h = Rsum (fun i => g (i * 2 + 1)%nat) h).
  { intros c Hc. rewrite <- (Rsum_rev (fun j => f (c + j)%nat) h).
    apply Rsum_ext. intros i Hi. rewrite Hc by exact Hi. apply Hhigh. exact Hi. }
  assert (Hl : Rsum f h = Rsum (fun i => g (i * 2)%nat) h).
  { apply Rsum_ext. exact Hlow. }
  destruct Hn as [Hn|Hn].
  - transitivity (Rsum f (h + h)); [f_equal; lia|].
    transitivity (Rsum g (h * 2)); [|f_equal; lia].
    rewrite Rsum_app, Rsum_even_odd, Hl, (Hrev h) by (intros; lia). reflexivity.
  - transitivity (Rsum f (h + S h)); [f_equal; lia|].
    transitivity (Rsum g (S (h * 2))); [|f_equal; lia].
    rewrite Rsum_app, Rsum_shift. cbn [Rsum]. rewrite Rsum_even_odd, Hl.
    rewrite (Rsum_ext (fun j => f (h + S j)%nat) (fun j => f (S h + j)%nat) h)
      by (intros j Hj; f_equal; lia).
    rewrite (Hrev (S h)) by (intros; lia).
    rewrite Nat.add_0_r, (Hmid Hn). lra.
Qed.

Section WeightedBins.
Variables (N k : nat) (v src : list R).
Hypothesis Hv : length v = N.
Hypothesis Hsrc : length src = N.
Hypothesis HN : N <> 0.
Hypothesis Hfill : forall i, i < N / 2 ->
  src !! i = Some (default 0%R (v !! (i * 2))) /\
  src !! (N - 1 - i) = Some (default 0%R (v !! (i * 2 + 1))).
Hypothesis Hmid : N mod 2 = 1 ->
  src !! (N / 2) = Some (default 0%R (v !! (N - 1))).

Lemma INR_N_neq : INR N <> 0%R.
Proof. apply not_0_INR. exact HN. Qed.

Lemma bin_term_low i :
  src !! i = Some (default 0%R (v !! (i * 2))) ->
  bin_term N k src i = dct_term N k v (i * 2).
Proof.
  intros Hi. unfold bin_term, dct_term. rewrite Hi. simpl default. f_equal. f_equal.
  rewrite !mult_INR. change (INR 2) with 2%R. pose proof INR_N_neq. field. assumption.
Qed.

Lemma bin_term_high i :
  i * 2 + 1 < N ->
  src !! (N - 1 - i) = Some (default 0%R (v !! (i * 2 + 1))) ->
  bin_term N k src (N - 1 - i) = dct_term N k v (i * 2 + 1).
Proof.
  intros Hlt Hi. unfold bin_term, dct_term. rewrite Hi. simpl default. f_equal.
  rewrite <- (cos_minus_turns (PI / INR N * (INR (i * 2 + 1) + 1 / 2) * INR k) k).
  f_equal.
  rewrite !mult_INR, plus_INR, mult_INR, !minus_INR by lia.
  change (INR 2) with 2%R. change (INR 1) with 1%R.
  pose proof INR_N_neq. field. assumption.
Qed.

Lemma bin_terms_sum : Rsum (bin_term N k src) N = Rsum (dct_term N k v) N.
Proof.
  pose proof (Nat.div_mod_eq N 2) as Hdm.
  pose proof (Nat.mod_upper_bound N 2 ltac:(lia)) as Hmod.
  apply (Rsum_interleaved (bin_term N k src) (dct_term N k v) N (N / 2)).
  - lia.
  - intros i Hi. apply bin_term_low, Hfill. exact Hi.
  - intros i Hi. apply bin_term_high; [lia | apply Hfill; exact Hi].
  - intros Hodd. apply bin_term_low.
    replace (N / 2 * 2) with (N - 1) by lia. apply Hmid. lia.
Qed.

Lemma weighted_bin_is_dct2 :
  (cpx_r (dft_bin N (map (fun x => Cpx x 0%R) src) k) * cos (INR k * PI / INR (N * 2)) +
   cpx_i (dft_bin N (map (fun x => Cpx x 0%R) src) k) * sin (INR k * PI / INR (N * 2)))%R =
  dct2 v k.
Proof.
  unfold dct2. rewrite Hv.
  match goal with |- ?lhs = _ => change (lhs = Rsum (dct_term N k v) N) end.
  rewrite <- bin_terms_sum.
  unfold dft_bin. cbn [cpx_r cpx_i].
  rewrite <- !Rsum_scal_r, <- Rsum_plus.
  apply Rsum_ext. intros m Hm. unfold bin_term, bin_at.
  rewrite lookup_map.
  destruct (lookup_lt_is_Some_2 src m ltac:(lia)) as [y Hy]. rewrite Hy. simpl.
  rewrite cos_plus. ring.
Qed.
End WeightedBins.

(** ** [transform] against the DCT-II, in exact arithmetic *)

(** [transform] with the exact real FFT, entry by entry. *)
Lemma transform_exact_entries (v : list R) (h : heap) :
  answer 0 h = true -> answer 1 h = true ->
  status_of (transform exact_externals (length v) (State v h)) = 0%Z /\
  length (vector (final (transform exact_externals (length v) (State v h)))) = length v /\
  (forall k, k <= length v / 2 -> k < length v ->
     vector (final (transform exact_externals (length v) (State v h))) !! k =
       Some (dct2 v k)) /\
  (forall k, length v / 2 < k ->
     vector (final (transform exact_externals (length v) (State v h))) !! k = v !! k).
Proof.
  intros H0 H1.
  destruct (transform_served exact_externals (length v) (State v h) H0 H1)
    as (src & r & out & v' & h' & t_post & Hrun & Hrfft & _ & Hl & Hfill & Hmid & Hl' &
        _ & Hok).
  cbn [rfft exact_externals] in Hrfft. injection Hrfft as <- <-.
  destruct (Hok eq_refl) as (_ & Hw & Hk).
  rewrite Hrun. unfold status_of, final. cbn [fst snd vector] in *.
  split_and!; auto.
  - intros k Hk1 Hk2. rewrite Hw by lia. f_equal.
    unfold transform_coeff, bin_at. rewrite lookup_map_seq by lia.
    cbn [default f_add f_mul f_cos f_sin f_angle real_float].
    apply (weighted_bin_is_dct2 (length v) k v src eq_refl Hl); [lia | exact Hfill | exact Hmid].
  - intros k Hk1. apply Hk. lia.
Qed.

(** With exact arithmetic and an exact real FFT, [transform] on a vector of
    [N] samples (both allocations served) returns 0; the entries it writes,
    [0 .. N/2], hold the unscaled DCT-II coefficients of the input, and
    every entry beyond index [N/2] still holds the input sample that was
    there: the upper coefficients are never computed. *)
Theorem transform_exact_dct2_prefix (v : list R) (h : heap) :
  answer 0 h = true -> answer 1 h = true ->
  status_of (transform exact_externals (length v) (State v h)) = 0%Z /\
  length (vector (final (transform exact_externals (length v) (State v h)))) = length v /\
  (forall k, k <= length v / 2 -> k < length v ->
     vector (final (transform exact_externals (length v) (State v h))) !! k =
       Some (dct2 v k)) /\
  (forall k, length v / 2 < k ->
     vector (final (transform exact_externals (length v) (State v h))) !! k = v !! k).
Proof. apply transform_exact_entries. Qed.

Lemma transform_exact_dct2_prefix_witness :
  status_of (transform exact_externals 3 (State [1; 2; 3]%R fresh_heap)) = 0%Z /\
  length (vector (final (transform exact_externals 3 (State [1; 2; 3]%R fresh_heap)))) = 3 /\
  (forall k, k <= 3 / 2 -> k < 3 ->
     vector (final (transform exact_externals 3 (State [1; 2; 3]%R fresh_heap))) !! k =
       Some (dct2 [1; 2; 3]%R k)) /\
  (forall k, 3 / 2 < k ->
     vector (final (transform exact_externals 3 (State [1; 2; 3]%R fresh_heap))) !! k =
     [1; 2; 3]%R !! k).
Proof.
  exact (transform_exact_dct2_prefix [1; 2; 3]%R fresh_heap eq_refl eq_refl).
Defined.

(** C2. [transform] does not populate all [N] entries with the DCT-II
    result: on the three samples 0, 1, 0 it returns 0 and entry 2 still
    holds the input sample 0, while the DCT-II coefficient 2 of that input
    is -1. *)
Lemma transform_upper_entry_stale :
  status_of (transform exact_externals 3 (State [0; 1; 0]%R fresh_heap)) = 0%Z /\
  vector (final (transform exact_externals 3 (State [0; 1; 0]%R fresh_heap))) !! 2 =
    Some 0%R /\
  dct2 [0; 1; 0]%R 2 = (-1)%R /\
  vector (final (transform exact_externals 3 (State [0; 1; 0]%R fresh_heap))) !! 2 <>
    Some (dct2 [0; 1; 0]%R 2).
Proof.
  destruct (transform_exact_entries [0; 1; 0]%R fresh_heap eq_refl eq_refl)
    as (Hst & _ & _ & Hup).
  assert (Hd : dct2 [0; 1; 0]%R 2 = (-1)%R).
  { unfold dct2. cbn [length Rsum lookup list_lookup default].
    replace (PI / INR 3 * (INR 1 + 1 / 2) * INR 2)%R with PI
      by (simpl INR; field).
    rewrite cos_PI. simpl. lra. }
  change (length [0; 1; 0]%R) with 3 in *.
  assert (Hlt : 3 / 2 < 2) by (change (3 / 2) with 1; lia).
  split; [exact Hst|]. split; [exact (Hup 2 Hlt)|]. split; [exact Hd|].
  rewrite (Hup 2 Hlt), Hd. cbn. intros Heq. injection Heq as Heq. lra.
Qed.

(** ** The round trip, in exact arithmetic *)

(** After a [transform] that obtained its two buffers, the allocator goes
    on with the answers that follow the two it gave. *)
Lemma transform_answers {F} `{Float32 F} (X : Externals F) len (s : state F) k :
  answer 0 (mem s) = true -> answer 1 (mem s) = true ->
  answer k (mem (final (transform X len s))) = answer (2 + k) (mem s).
Proof.
  intros H0 H1. destruct s as [v [p n l z]]. unfold transform, bind.
  rewrite calloc_served by assumption. heap_simpl.
  rewrite calloc_served by alloc_ok. heap_simpl.
  match goal with |- context [transform_pre len ?b ?s] =>
    destruct (transform_pre_spec len b s (length_replicate _ _)) as (src & Hpre & _)
  end.
  rewrite Hpre. unfold call_rfft.
  destruct (rfft X src len (replicate (len / 2 + 1) cpx_zero) (len / 2 + 1) len) as [r out].
  destruct (Z.eqb r 0); cbn [negb].
  - match goal with |- context [transform_post len out ?s] =>
      destruct (transform_post_spec len out s) as (v' & Hpost & _)
    end.
    rewrite Hpost. unfold ei_dsp_free, ret, final. heap_simpl.
    rewrite !answer_tail. reflexivity.
  - unfold ei_dsp_free, ret, final. heap_simpl. rewrite !answer_tail. reflexivity.
Qed.

(** [inverse_transform] with the exact complex FFT, entry by entry. *)
Lemma inverse_exact_entries (w : list R) (h : heap) :
  answer 0 h = true -> answer 1 h = true -> answer 2 h = true ->
  let N := length w in
  let fin := map (inverse_input N (halved N (State w h))) (seq 0 N) in
  let res := inverse_transform exact_externals N (State w h) in
  status_of res = 0%Z /\
  length (vector (final res)) = N /\
  (forall i, i < N / 2 ->
     vector (final res) !! (i * 2) = Some (cpx_r (dft_bin N fin i)) /\
     vector (final res) !! (i * 2 + 1) = Some (cpx_r (dft_bin N fin (N - 1 - i)))) /\
  (N mod 2 = 1 -> vector (final res) !! (N - 1) = Some (cpx_r (dft_bin N fin (N / 2)))).
Proof.
  intros H0 H1 H2 N fin0 res.
  pose proof (Nat.div_mod_eq N 2) as Hdm.
  pose proof (Nat.mod_upper_bound N 2 ltac:(lia)) as Hmod.
  destruct (inverse_served exact_externals N (State w h) H0 H1 H2)
    as (fin & v & h' & Hrun & _ & Hl & Hfin & Hlv & Hv).
  cbv zeta in Hrun, Hv. cbn [vector] in Hlv, Hv.
  assert (fin = fin0) as ->.
  { apply list_eq. intros i. unfold fin0.
    destruct (Nat.lt_ge_cases i N) as [Hi|Hi].
    - rewrite Hfin, lookup_map_seq by exact Hi. reflexivity.
    - rewrite !(lookup_ge_None_2 _ i); auto.
      + rewrite length_map, length_seq. exact Hi.
      + rewrite Hl. exact Hi. }
  destruct (Hv (le_n _)) as (Hpairs & Hmid & _).
  subst res. rewrite Hrun. unfold status_of, final. cbn [fst snd vector].
  cbn [kiss_fft exact_externals] in Hpairs, Hmid.
  split_and!; auto.
  - intros i Hi. destruct (Hpairs i Hi) as [Ha Hb].
    unfold bin_at in Ha, Hb. rewrite !lookup_map_seq in Ha, Hb by (fold N; lia).
    split; assumption.
  - intros Hodd. specialize (Hmid Hodd).
    unfold bin_at in Hmid. rewrite lookup_map_seq in Hmid by (fold N; lia). exact Hmid.
Qed.

Lemma dct2_single (a : R) : dct2 [a] 0 = a.
Proof.
  unfold dct2. simpl. rewrite Rmult_0_r, cos_0. lra.
Qed.

Lemma roundtrip_single (a : R) (h : heap) :
  (forall k, answer k h = true) ->
  roundtrip [a] h = [(a / 2)%R].
Proof.
  intros Hans. unfold roundtrip.
  destruct (transform_exact_entries [a] h (Hans 0) (Hans 1)) as (_ & Hlen & Hlow & _).
  pose proof (fun k => transform_answers exact_externals (length [a]) (State [a] h) k
                         (Hans 0) (Hans 1)) as Hans1.
  destruct (final (transform exact_externals (length [a]) (State [a] h))) as [w h1].
  cbn [vector mem length] in *.
  destruct w as [|x [|? ?]]; try discriminate.
  specialize (Hlow 0 ltac:(lia) ltac:(lia)). simpl in Hlow. injection Hlow as ->.
  rewrite dct2_single.
  destruct (inverse_exact_entries [a] h1) as (_ & Hlen' & _ & Hmid);
    try (rewrite Hans1; apply Hans).
  cbn [length] in *. specialize (Hmid eq_refl).
  destruct (vector _) as [|y [|? ?]]; try discriminate.
  simpl in Hmid. injection Hmid as ->. f_equal.
  unfold halved. simpl. unfold sample. simpl.
  replace (0 * PI / (1 + 1))%R with 0%R by lra.
  replace (2 * PI * 0 / 1)%R with 0%R by lra.
  rewrite cos_0, sin_0. lra.
Qed.

Lemma cos_PI4_sqr : (cos (PI / 4) * cos (PI / 4) = 1 / 2)%R.
Proof.
  pose proof (cos_2a_cos (PI / 4)) as Hc.
  replace (2 * (PI / 4))%R with (PI / 2)%R in Hc by lra.
  rewrite cos_PI2 in Hc. lra.
Qed.

Lemma dct2_pair_0 (a b : R) : dct2 [a; b] 0 = (a + b)%R.
Proof.
  unfold dct2. simpl. rewrite !Rmult_0_r, cos_0. lra.
Qed.

Lemma dct2_pair_1 (a b : R) : dct2 [a; b] 1 = ((a - b) * cos (PI / 4))%R.
Proof.
  unfold dct2. simpl.
  replace (PI / (1 + 1) * (0 + 1 / 2) * 1)%R with (PI / 4)%R by lra.
  replace (PI / (1 + 1) * (1 + 1 / 2) * 1)%R with (3 * (PI / 4))%R by lra.
  rewrite cos_3PI4, cos_PI4. lra.
Qed.

Lemma roundtrip_pair (a b : R) (h : heap) :
  (forall k, answer k h = true) ->
  roundtrip [a; b] h = [a; b].
Proof.
  intros Hans. unfold roundtrip.
  destruct (transform_exact_entries [a; b] h (Hans 0) (Hans 1)) as (_ & Hlen & Hlow & _).
  pose proof (fun k => transform_answers exact_externals (length [a; b]) (State [a; b] h) k
                         (Hans 0) (Hans 1)) as Hans1.
  destruct (final (transform exact_externals (length [a; b]) (State [a; b] h))) as [w h1].
  cbn [vector mem length] in *. change (2 / 2) with 1 in Hlow.
  destruct w as [|x0 [|x1 [|? ?]]]; try discriminate.
  pose proof (Hlow 0 ltac:(lia) ltac:(lia)) as Hx0.
  pose proof (Hlow 1 ltac:(lia) ltac:(lia)) as Hx1.
  simpl in Hx0, Hx1. injection Hx0 as ->. injection Hx1 as ->.
  rewrite dct2_pair_0, dct2_pair_1.
  destruct (inverse_exact_entries [(a + b)%R; ((a - b) * cos (PI / 4))%R] h1)
    as (_ & Hlen' & Hpairs & _); try (rewrite Hans1; apply Hans).
  cbn [length] in *. change (2 / 2) with 1 in Hpairs.
  destruct (Hpairs 0 ltac:(lia)) as [Hy0 Hy1].
  destruct (vector _) as [|y0 [|y1 [|? ?]]]; try discriminate.
  simpl in Hy0, Hy1. injection Hy0 as ->. injection Hy1 as ->.
  unfold halved. simpl. unfold sample. simpl.
  replace (0 * PI / (1 + 1 + 1 + 1))%R with 0%R by lra.
  replace (2 * PI * 0 / (1 + 1))%R with 0%R by lra.
  replace (1 * PI / (1 + 1 + 1 + 1))%R with (PI / 4)%R by lra.
  replace (2 * PI * 1 / (1 + 1))%R with PI by lra.
  rewrite cos_0, sin_0, cos_PI, sin_PI.
  assert (Hcc : forall t, (t * cos (PI / 4) * cos (PI / 4) = t / 2)%R)
    by (intros t; rewrite Rmult_assoc, cos_PI4_sqr; lra).
  rewrite !Hcc. f_equal; [lra | f_equal; lra].
Qed.

(** C1, as the code has it. With exact arithmetic and exact FFTs, for
    vectors of one or two samples and an allocator that serves every
    request, [transform] followed by [inverse_transform] returns success
    twice and leaves the input scaled by [N / 2]: multiplying the result by
    [2 / N] recovers the input. *)
Theorem roundtrip_exact_short (v : list R) (h : heap) :
  length v = 1 \/ length v = 2 ->
  (forall k, answer k h = true) ->
  status_of (transform exact_externals (length v) (State v h)) = 0%Z /\
  status_of (inverse_transform exact_externals (length v)
               (final (transform exact_externals (length v) (State v h)))) = 0%Z /\
  map (fun x => x * 2 / INR (length v))%R (roundtrip v h) = v.
Proof.
  intros Hlen Hans.
  pose proof (transform_exact_entries v h (Hans 0) (Hans 1)) as (Hst & Hl & _).
  split; [exact Hst|]. split.
  - pose proof (fun k => transform_answers exact_externals (length v) (State v h) k
                           (Hans 0) (Hans 1)) as Hans1.
    destruct (final (transform exact_externals (length v) (State v h))) as [w h1].
    cbn [vector mem] in *. rewrite <- Hl.
    apply (inverse_exact_entries w h1); rewrite Hans1; apply Hans.
  - destruct Hlen as [Hlen|Hlen].
    + destruct v as [|a [|? ?]]; try discriminate.
      rewrite roundtrip_single by exact Hans. simpl. f_equal. lra.
    + destruct v as [|a [|b [|? ?]]]; try discriminate.
      rewrite roundtrip_pair by exact Hans. simpl. f_equal; [lra | f_equal; lra].
Qed.

Lemma fresh_heap_serves k : answer k fresh_heap = true.
Proof. destruct k; reflexivity. Qed.

Lemma roundtrip_exact_short_witness :
  status_of (transform exact_externals 2 (State [3; 5]%R fresh_heap)) = 0%Z /\
  status_of (inverse_transform exact_externals 2
               (final (transform exact_externals 2 (State [3; 5]%R fresh_heap)))) = 0%Z /\
  map (fun x => x * 2 / INR 2)%R (roundtrip [3; 5]%R fresh_heap) = [3; 5]%R.
Proof.
  exact (roundtrip_exact_short [3; 5]%R fresh_heap (or_intror eq_refl) fresh_heap_serves).
Defined.

(** C1, as stated, fails: on the single sample 1 the round trip returns
    1/2, and dividing by [2 N = 2] gives 1/4, at distance 3/4 from the
    input. *)
Lemma roundtrip_single_quarter :
  roundtrip [1]%R fresh_heap = [(1 / 2)%R] /\
  map (fun x => x / (2 * INR 1))%R (roundtrip [1]%R fresh_heap) = [(1 / 4)%R] /\
  (Rabs (1 / 4 - 1) = 3 / 4)%R.
Proof.
  rewrite (roundtrip_single 1 fresh_heap fresh_heap_serves).
  split; [reflexivity|]. split.
  - simpl. f_equal. lra.
  - replace (1 / 4 - 1)%R with (- (3 / 4))%R by lra.
    rewrite Rabs_Ropp. apply Rabs_pos_eq. lra.
Qed.

(** From three samples on the round trip is no longer a scaling: on
    0, 0, 1 its entry 0 is 1/4, where the input has 0. *)
Theorem roundtrip_triple_off :
  roundtrip [0; 0; 1]%R fresh_heap !! 0 = Some (1 / 4)%R.
Proof.
  unfold roundtrip.
  cbv -[Rplus Rmult Rminus Ropp Rdiv Rinv cos sin PI IZR INR].
  simpl INR. f_equal.
  replace (2 * PI * 0 / (1 + 1 + 1))%R with 0%R by lra.
  replace (0 * PI / (1 + 1 + 1 + 1 + 1 + 1))%R with 0%R by lra.
  replace (2 * PI * 1 / (1 + 1 + 1))%R with (2 * (PI / 3))%R by lra.
  replace (1 * PI / (1 + 1 + 1 + 1 + 1 + 1))%R with (PI / 6)%R by lra.
  replace ((1 + 1) * PI / (1 + 1 + 1 + 1 + 1 + 1))%R with (PI / 3)%R by lra.
  rewrite cos_0, sin_0, cos_2PI3, sin_2PI3, cos_PI6, sin_PI6, cos_PI3.
  pose proof (sqrt_sqrt 3 ltac:(lra)) as Hs.
  generalize dependent (sqrt 3). intros q Hq.
  generalize (cos (2 * PI * (1 + 1) / (1 + 1 + 1))) (sin (2 * PI * (1 + 1) / (1 + 1 + 1)))
             (sin (PI / 3)).
  intros c2 s2 s3. nra.
Qed.

(** * Further properties *)

(** ** Every access stays inside the [len] samples *)

Section Bounds.
Context {F : Type} `{Float32 F} (X : Externals F).

Lemma pre_reads_in_bounds len :
  Forall (fun e : event F => in_bounds len e = true) (pre_reads len).
Proof.
  pose proof (Nat.div_mod_eq len 2) as Hdm.
  pose proof (Nat.mod_upper_bound len 2 ltac:(lia)) as Hmod.
  unfold pre_reads. apply Forall_app. split.
  - apply List.Forall_forall. intros e He. unfold pre_loop_reads in He.
    apply in_flat_map in He. destruct He as (i & Hi & He). apply in_seq in Hi.
    destruct He as [<-|[<-|[]]]; apply Nat.ltb_lt; lia.
  - destruct (Nat.eqb_spec (len mod 2) 1); repeat constructor. apply Nat.ltb_lt. lia.
Qed.

Lemma post_writes_in_bounds len out :
  1 <= len ->
  Forall (fun e : event F => in_bounds len e = true) (post_writes len out (len / 2 + 1)).
Proof.
  intros Hlen. pose proof (Nat.div_lt len 2 ltac:(lia) ltac:(lia)) as Hhalf.
  apply List.Forall_forall. intros e He. unfold post_writes in He.
  apply in_map_iff in He. destruct He as (i & <- & Hi). apply in_seq in Hi.
  apply Nat.ltb_lt. lia.
Qed.

Lemma halving_in_bounds len (s : state F) :
  Forall (fun e : event F => in_bounds len e = true) (halving len s).
Proof.
  unfold halving. destruct (Nat.ltb_spec 0 len); repeat constructor;
    apply Nat.ltb_lt; assumption.
Qed.

Lemma index_reads_in_bounds len :
  Forall (fun e : event F => in_bounds len e = true) (index_reads len).
Proof.
  apply List.Forall_forall. intros e He. unfold index_reads in He.
  apply in_map_iff in He. destruct He as (i & <- & Hi). apply in_seq in Hi.
  apply Nat.ltb_lt. lia.
Qed.

Lemma inverse_writes_in_bounds len out :
  Forall (fun e : event F => in_bounds len e = true) (inverse_writes len out).
Proof.
  pose proof (Nat.div_mod_eq len 2) as Hdm.
  pose proof (Nat.mod_upper_bound len 2 ltac:(lia)) as Hmod.
  unfold inverse_writes. apply Forall_app. split.
  - apply List.Forall_forall. intros e He. unfold post_loop_writes in He.
    apply in_flat_map in He. destruct He as (i & Hi & He). apply in_seq in Hi.
    destruct He as [<-|[<-|[]]]; apply Nat.ltb_lt; lia.
  - destruct (Nat.eqb_spec (len mod 2) 1); repeat constructor. apply Nat.ltb_lt. lia.
Qed.

(** For [len >= 1], every read and every write of [transform] on the
    caller's vector is at an index below [len], on every path. *)
Theorem transform_accesses_in_bounds len (s : state F) :
  1 <= len ->
  Forall (fun e => in_bounds len e = true) (trace (transform X len s)).
Proof.
  intros Hlen.
  destruct (answer 0 (mem s)) eqn:H0; [destruct (answer 1 (mem s)) eqn:H1|].
  - destruct (transform_served X len s H0 H1)
      as (src & r & out & v & h & t_post & -> & _ & _ & _ & _ & _ & _ & Hfail & Hok).
    unfold trace. cbn [snd].
    apply Forall_app; split; [repeat constructor|].
    apply Forall_app; split; [apply pre_reads_in_bounds|].
    apply Forall_app; split; [repeat constructor|].
    apply Forall_app; split; [|repeat constructor].
    destruct (Z.eq_dec r 0%Z) as [Hr|Hr].
    + destruct (Hok Hr) as (-> & _). apply post_writes_in_bounds. exact Hlen.
    + destruct (Hfail Hr) as (-> & _). constructor.
  - destruct (transform_refused_in X len s H0 H1) as (h & -> & _). repeat constructor.
  - destruct (transform_refused_out X len s H0) as (h & -> & _). repeat constructor.
Qed.

(** Every read and every write of [inverse_transform] on the caller's
    vector is at an index below [len], for every [len] and on every path;
    for [len = 0] it makes none. *)
Theorem inverse_accesses_in_bounds len (s : state F) :
  Forall (fun e => in_bounds len e = true) (trace (inverse_transform X len s)).
Proof.
  destruct (answer 0 (mem s)) eqn:H0; [destruct (answer 1 (mem s)) eqn:H1|];
    [destruct (answer 2 (mem s)) eqn:H2| |].
  - destruct (inverse_served X len s H0 H1 H2) as (fin & v & h & Hrun & _).
    cbv zeta in Hrun. rewrite Hrun. unfold trace. cbn [snd].
    apply Forall_app; split; [repeat constructor|].
    apply Forall_app; split; [apply halving_in_bounds|].
    apply Forall_app; split; [apply index_reads_in_bounds|].
    apply Forall_app; split; [repeat constructor|].
    apply Forall_app; split; [apply inverse_writes_in_bounds|repeat constructor].
  - destruct (inverse_refused_cfg X len s H0 H1 H2) as (h & -> & _). repeat constructor.
  - destruct (inverse_refused_in X len s H0 H1) as (h & -> & _). repeat constructor.
  - destruct (inverse_refused_out X len s H0) as (h & -> & _). repeat constructor.
Qed.
End Bounds.

Lemma transform_accesses_in_bounds_witness :
  Forall (fun e => in_bounds 5 e = true)
    (trace (transform (sym_externals 0) 5 (sym_state 5 []))).
Proof.
  exact (transform_accesses_in_bounds (sym_externals 0) 5 (sym_state 5 []) ltac:(lia)).
Defined.

(** ** A refused allocation stops the call before any work *)

Section Refusals.
Context {F : Type} `{Float32 F} (X : Externals F).

Lemma access_no_refusal (t : list (event F)) e :
  Forall (fun e => access e = true) t -> In e t -> refusal e = false.
Proof.
  intros Hall Hin. rewrite List.Forall_forall in Hall. specialize (Hall e Hin).
  destruct e; try discriminate; reflexivity.
Qed.

Lemma transform_refused_no_work len (s : state F) e :
  refusal e = true -> In e (trace (transform X len s)) ->
  accesses (trace (transform X len s)) = [] /\
  rfft_calls (trace (transform X len s)) = [].
Proof.
  intros Hf Hin.
  destruct (answer 0 (mem s)) eqn:H0; [destruct (answer 1 (mem s)) eqn:H1|].
  - exfalso.
    destruct (transform_served X len s H0 H1)
      as (src & r & out & v & h & t_post & Hrun & _ & _ & _ & _ & _ & _ & Hfail & Hok).
    rewrite Hrun in Hin. unfold trace in Hin. cbn [snd] in Hin.
    split_in Hin; try (subst e; discriminate); try contradiction.
    + rewrite (access_no_refusal _ e (reads_access _ (pre_reads_read len)) Hin) in Hf.
      discriminate.
    + destruct (Z.eq_dec r 0%Z) as [Hr|Hr].
      * destruct (Hok Hr) as (-> & _).
        rewrite (access_no_refusal _ e (writes_access _ (post_writes_write _ _ _)) Hin) in Hf.
        discriminate.
      * destruct (Hfail Hr) as (-> & _). contradiction.
  - destruct (transform_refused_in X len s H0 H1) as (h & -> & _). split; reflexivity.
  - destruct (transform_refused_out X len s H0) as (h & -> & _). split; reflexivity.
Qed.

Lemma inverse_refused_no_work len (s : state F) e :
  refusal e = true -> In e (trace (inverse_transform X len s)) ->
  accesses (trace (inverse_transform X len s)) = [] /\
  kiss_fft_calls (trace (inverse_transform X len s)) = [].
Proof.
  intros Hf Hin.
  destruct (answer 0 (mem s)) eqn:H0; [destruct (answer 1 (mem s)) eqn:H1|];
    [destruct (answer 2 (mem s)) eqn:H2| |].
  - exfalso.
    destruct (inverse_served X len s H0 H1 H2) as (fin & v & h & Hrun & _).
    cbv zeta in Hrun. rewrite Hrun in Hin. unfold trace in Hin. cbn [snd] in Hin.
    split_in Hin; try (subst e; discriminate); try contradiction.
    + rewrite (access_no_refusal _ e (halving_access len s) Hin) in Hf. discriminate.
    + rewrite (access_no_refusal _ e (reads_access _ (index_reads_read len)) Hin) in Hf.
      discriminate.
    + rewrite (access_no_refusal _ e (writes_access _ (inverse_writes_write _ _)) Hin) in Hf.
      discriminate.
  - destruct (inverse_refused_cfg X len s H0 H1 H2) as (h & -> & _). split; reflexivity.
  - destruct (inverse_refused_in X len s H0 H1) as (h & -> & _). split; reflexivity.
  - destruct (inverse_refused_out X len s H0) as (h & -> & _). split; reflexivity.
Qed.

(** When the allocator refuses a request of [transform] or
    [inverse_transform], the call has not read or written the caller's
    vector and has not called the FFT: every allocation comes before any
    work. *)
Theorem refusal_precedes_all_work len (s : state F) e :
  refusal e = true ->
  (In e (trace (transform X len s)) ->
     accesses (trace (transform X len s)) = [] /\
     rfft_calls (trace (transform X len s)) = []) /\
  (In e (trace (inverse_transform X len s)) ->
     accesses (trace (inverse_transform X len s)) = [] /\
     kiss_fft_calls (trace (inverse_transform X len s)) = []).
Proof.
  intros Hf. split; intros Hin.
  - apply (transform_refused_no_work len s e Hf Hin).
  - apply (inverse_refused_no_work len s e Hf Hin).
Qed.
End Refusals.

Lemma refusal_precedes_all_work_witness :
  (accesses (trace (transform (sym_externals 0) 4 (sym_state 4 [true; false]))) = [] /\
   rfft_calls (trace (transform (sym_externals 0) 4 (sym_state 4 [true; false]))) = []) /\
  (accesses (trace (inverse_transform (sym_externals 0) 4 (sym_state 4 [true; true; false]))) = [] /\
   kiss_fft_calls
     (trace (inverse_transform (sym_externals 0) 4 (sym_state 4 [true; true; false]))) = []).
Proof.
  split.
  - apply (proj1 (refusal_precedes_all_work (sym_externals 0) 4 (sym_state 4 [true; false])
                    (EvCalloc 16 None) eq_refl)).
    vm_compute. tauto.
  - apply (proj2 (refusal_precedes_all_work (sym_externals 0) 4
                    (sym_state 4 [true; true; false]) (EvCfgAlloc 4 None) eq_refl)).
    vm_compute. tauto.
Defined.

(** ** The two reorderings undo each other *)

Section Reorderings.
Context {F : Type} `{Float32 F}.

(** The reordering of lines 51-58 followed by that of lines 121-129 is the
    identity on [len] samples: when the bins handed to the de-interleaving
    carry, as real parts, the buffer that the interleaving built from the
    vector of [s], the first [len] entries it writes into the vector of
    [s'] are those of [s]. *)
Theorem deinterleave_inverts_interleave len (s s' : state F) out :
  len <= length (vector s) -> len <= length (vector s') ->
  (forall i, i < len ->
     Some (cpx_r (bin_at out i)) =
     status_of (transform_pre len (replicate len f_zero) s) !! i) ->
  forall j, j < len ->
    vector (final (inverse_post len out s')) !! j = vector s !! j.
Proof.
  intros Hcap Hcap' Hout j Hj.
  pose proof (Nat.div_mod_eq len 2) as Hdm.
  pose proof (Nat.mod_upper_bound len 2 ltac:(lia)) as Hmod.
  pose proof (Nat.div_mod_eq j 2) as Hjdm.
  pose proof (Nat.mod_upper_bound j 2 ltac:(lia)) as Hjmod.
  destruct (transform_pre_spec len (replicate len f_zero) s (length_replicate _ _))
    as (src & Hpre & Hl & Hfill & Hmid).
  rewrite Hpre in Hout. unfold status_of in Hout. cbn [fst] in Hout.
  destruct (inverse_post_spec len out s') as (v & Hpost & _ & Hv).
  rewrite Hpost. unfold final. cbn [fst snd vector].
  destruct (Hv Hcap') as (Hpairs & Hlast & _).
  destruct (Nat.eq_dec (j mod 2) 0) as [Heven|Hodd].
  - replace j with (j / 2 * 2) by lia.
    destruct (Nat.lt_ge_cases (j / 2) (len / 2)) as [Hlow|Hhigh].
    + destruct (Hpairs _ Hlow) as [-> _]. destruct (Hfill _ Hlow) as [Ha _].
      rewrite Hout, Ha by lia. symmetry. apply sample_lookup. lia.
    + assert (Hlen : len mod 2 = 1) by lia.
      replace (j / 2 * 2) with (len - 1) by lia.
      rewrite (Hlast Hlen), Hout, (Hmid Hlen) by lia. symmetry. apply sample_lookup. lia.
  - replace j with (j / 2 * 2 + 1) by lia.
    assert (Hlow : j / 2 < len / 2) by lia.
    destruct (Hpairs _ Hlow) as [_ ->]. destruct (Hfill _ Hlow) as [_ Hb].
    rewrite Hout, Hb by lia. symmetry. apply sample_lookup. lia.
Qed.
End Reorderings.

Lemma deinterleave_inverts_interleave_witness :
  vector (final (inverse_post 5
                   (map (fun x => Cpx x SZero) (map SIn [0; 2; 4; 3; 1]))
                   (State (replicate 5 SZero) (Heap [] 0 [] 0)))) !! 1 =
    vector (sym_state 5 []) !! 1 /\
  vector (final (inverse_post 5
                   (map (fun x => Cpx x SZero) (map SIn [0; 2; 4; 3; 1]))
                   (State (replicate 5 SZero) (Heap [] 0 [] 0)))) !! 4 =
    vector (sym_state 5 []) !! 4.
Proof.
  assert (Hout : forall i, i < 5 ->
            Some (cpx_r (bin_at (map (fun x => Cpx x SZero) (map SIn [0; 2; 4; 3; 1])) i)) =
            status_of (transform_pre 5 (replicate 5 f_zero) (sym_state 5 [])) !! i).
  { intros i Hi. do 5 (destruct i as [|i]; [reflexivity|]). lia. }
  split.
  - exact (deinterleave_inverts_interleave 5 (sym_state 5 [])
             (State (replicate 5 SZero) (Heap [] 0 [] 0)) _
             ltac:(vm_compute; lia) ltac:(vm_compute; lia) Hout 1 ltac:(lia)).
  - exact (deinterleave_inverts_interleave 5 (sym_state 5 [])
             (State (replicate 5 SZero) (Heap [] 0 [] 0)) _
             ltac:(vm_compute; lia) ltac:(vm_compute; lia) Hout 4 ltac:(lia)).
Defined.

(** ** What [inverse_transform] computes, in exact arithmetic *)

Lemma inverse_bin_sum (N : nat) (w : list R) (h : heap) (m : nat) :
  cpx_r (dft_bin N (map (inverse_input N (State w h)) (seq 0 N)) m) = inverse_sum N w m.
Proof.
  unfold dft_bin, inverse_sum. cbn [cpx_r].
  apply Rsum_ext. intros k Hk. unfold bin_at.
  rewrite lookup_map_seq by exact Hk.
  unfold inverse_input, sample. simpl. ring.
Qed.

Lemma inverse_sum_mirror (N : nat) (w : list R) (m : nat) :
  m <= N -> N <> 0 -> inverse_sum N w (N - m) = inverse_sum N w m.
Proof.
  intros Hm HN. unfold inverse_sum. apply Rsum_ext. intros k Hk. f_equal.
  rewrite <- (cos_minus_turns (2 * PI * INR (k * m) / INR N) k). f_equal.
  rewrite !mult_INR, minus_INR by exact Hm.
  pose proof (not_0_INR N HN). field. assumption.
Qed.

(** The entries [w] that the complex FFT input is built from: the caller's
    vector with entry 0 halved. *)
Lemma halved_vector (N : nat) (w : list R) (h : heap) :
  1 <= N -> vector (halved N (State w h)) = <[0 := (default 0 (w !! 0%nat) / 2)%R]> w.
Proof.
  intros HN. unfold halved. destruct (Nat.ltb_spec 0 N); [reflexivity | lia].
Qed.

(** [inverse_transform] with the exact complex FFT, as cosine sums. *)
Lemma inverse_exact_sums (w : list R) (h : heap) :
  answer 0 h = true -> answer 1 h = true -> answer 2 h = true ->
  1 <= length w ->
  status_of (inverse_transform exact_externals (length w) (State w h)) = 0%Z /\
  (forall i, i < length w / 2 ->
     vector (final (inverse_transform exact_externals (length w) (State w h))) !! (i * 2) =
       Some (inverse_sum (length w) (<[0 := (default 0 (w !! 0%nat) / 2)%R]> w) i) /\
     vector (final (inverse_transform exact_externals (length w) (State w h))) !! (i * 2 + 1) =
       Some (inverse_sum (length w) (<[0 := (default 0 (w !! 0%nat) / 2)%R]> w)
               (length w - 1 - i))) /\
  (length w mod 2 = 1 ->
     vector (final (inverse_transform exact_externals (length w) (State w h)))
       !! (length w - 1) =
       Some (inverse_sum (length w) (<[0 := (default 0 (w !! 0%nat) / 2)%R]> w) (length w / 2))).
Proof.
  intros H0 H1 H2 HN.
  destruct (inverse_exact_entries w h H0 H1 H2) as (Hst & _ & Hpairs & Hmid).
  rewrite <- (halved_vector (length w) w h HN).
  assert (Hfin : forall m,
            cpx_r (dft_bin (length w)
                     (map (inverse_input (length w) (halved (length w) (State w h)))
                          (seq 0 (length w))) m) =
            inverse_sum (length w) (vector (halved (length w) (State w h))) m).
  { intros m. destruct (halved (length w) (State w h)) as [w' h'].
    apply inverse_bin_sum. }
  split; [exact Hst|]. split.
  - intros i Hi. destruct (Hpairs i Hi) as [Ha Hb].
    rewrite Ha, Hb, !Hfin. split; reflexivity.
  - intros Hodd. rewrite (Hmid Hodd), Hfin. reflexivity.
Qed.

(** With exact arithmetic and an exact complex FFT, [inverse_transform] on
    [N >= 1] entries [w] (three allocations served) returns 0 and leaves in
    entries [2i] and [2i+1] the cosine sums [inverse_sum] of bins [i] and
    [N-1-i] of the input with entry 0 halved (and of bin [N/2] in the last
    entry when [N] is odd): the sine part of the DCT-III phase factor does
    not enter the result. *)
Theorem inverse_exact_cosine_sums (w : list R) (h : heap) :
  answer 0 h = true -> answer 1 h = true -> answer 2 h = true ->
  1 <= length w ->
  status_of (inverse_transform exact_externals (length w) (State w h)) = 0%Z /\
  (forall i, i < length w / 2 ->
     vector (final (inverse_transform exact_externals (length w) (State w h))) !! (i * 2) =
       Some (inverse_sum (length w) (<[0 := (default 0 (w !! 0%nat) / 2)%R]> w) i) /\
     vector (final (inverse_transform exact_externals (length w) (State w h))) !! (i * 2 + 1) =
       Some (inverse_sum (length w) (<[0 := (default 0 (w !! 0%nat) / 2)%R]> w)
               (length w - 1 - i))) /\
  (length w mod 2 = 1 ->
     vector (final (inverse_transform exact_externals (length w) (State w h)))
       !! (length w - 1) =
       Some (inverse_sum (length w) (<[0 := (default 0 (w !! 0%nat) / 2)%R]> w) (length w / 2))).
Proof. apply inverse_exact_sums. Qed.

Lemma inverse_exact_cosine_sums_witness :
  status_of (inverse_transform exact_externals 3 (State [1; 2; 3]%R fresh_heap)) = 0%Z /\
  (forall i, i < 3 / 2 ->
     vector (final (inverse_transform exact_externals 3 (State [1; 2; 3]%R fresh_heap)))
       !! (i * 2) =
       Some (inverse_sum 3 (<[0 := (1 / 2)%R]> [1; 2; 3]%R) i) /\
     vector (final (inverse_transform exact_externals 3 (State [1; 2; 3]%R fresh_heap)))
       !! (i * 2 + 1) =
       Some (inverse_sum 3 (<[0 := (1 / 2)%R]> [1; 2; 3]%R) (3 - 1 - i))) /\
  (3 mod 2 = 1 ->
     vector (final (inverse_transform exact_externals 3 (State [1; 2; 3]%R fresh_heap)))
       !! (3 - 1) =
       Some (inverse_sum 3 (<[0 := (1 / 2)%R]> [1; 2; 3]%R) (3 / 2))).
Proof.
  exact (inverse_exact_cosine_sums [1; 2; 3]%R fresh_heap eq_refl eq_refl eq_refl
           ltac:(simpl; lia)).
Defined.

Lemma inverse_neighbours (w : list R) (h : heap) i :
  answer 0 h = true -> answer 1 h = true -> answer 2 h = true ->
  i * 2 + 2 < length w ->
  vector (final (inverse_transform exact_externals (length w) (State w h))) !! (i * 2 + 1) =
  vector (final (inverse_transform exact_externals (length w) (State w h))) !! (i * 2 + 2).
Proof.
  intros H0 H1 H2 Hi.
  pose proof (Nat.div_mod_eq (length w) 2) as Hdm.
  pose proof (Nat.mod_upper_bound (length w) 2 ltac:(lia)) as Hmod.
  destruct (inverse_exact_sums w h H0 H1 H2 ltac:(lia)) as (_ & Hpairs & Hmid).
  destruct (Hpairs i ltac:(lia)) as [_ ->].
  replace (length w - 1 - i) with (length w - S i) by lia.
  rewrite inverse_sum_mirror by lia.
  destruct (Nat.lt_ge_cases (S i) (length w / 2)) as [Hlow|Hhigh].
  - destruct (Hpairs (S i) Hlow) as [Ha _].
    replace (i * 2 + 2) with (S i * 2) by lia. rewrite Ha. reflexivity.
  - assert (Hodd : length w mod 2 = 1) by lia.
    replace (i * 2 + 2) with (length w - 1) by lia.
    rewrite (Hmid Hodd). do 2 f_equal. lia.
Qed.

(** With exact arithmetic and an exact complex FFT, the result of
    [inverse_transform] always repeats itself: entries [2i+1] and [2i+2]
    are equal whenever both lie inside the [N] entries. The zero imaginary
    input makes the real parts of bins [m] and [N-m] coincide. *)
Theorem inverse_exact_neighbours_equal (w : list R) (h : heap) i :
  answer 0 h = true -> answer 1 h = true -> answer 2 h = true ->
  i * 2 + 2 < length w ->
  vector (final (inverse_transform exact_externals (length w) (State w h))) !! (i * 2 + 1) =
  vector (final (inverse_transform exact_externals (length w) (State w h))) !! (i * 2 + 2).
Proof. apply inverse_neighbours. Qed.

Lemma inverse_exact_neighbours_equal_witness :
  vector (final (inverse_transform exact_externals 5 (State [1; 2; 3; 4; 5]%R fresh_heap)))
    !! (1 * 2 + 1) =
  vector (final (inverse_transform exact_externals 5 (State [1; 2; 3; 4; 5]%R fresh_heap)))
    !! (1 * 2 + 2).
Proof.
  exact (inverse_exact_neighbours_equal [1; 2; 3; 4; 5]%R fresh_heap 1
           eq_refl eq_refl eq_refl ltac:(simpl; lia)).
Defined.

(** With exact arithmetic and exact FFTs, no rescaling of the round trip
    gives back a vector of three or more samples whose samples 1 and 2
    differ: [inverse_transform] after [transform] leaves equal values in
    entries 1 and 2. *)
Theorem roundtrip_cannot_recover (v : list R) (h : heap) (c : R) :
  3 <= length v -> v !! 1 <> v !! 2 ->
  (forall k, answer k h = true) ->
  map (Rmult c) (roundtrip v h) <> v.
Proof.
  intros Hlen Hdiff Hans Heq. apply Hdiff.
  rewrite <- Heq, !lookup_map. f_equal.
  unfold roundtrip.
  pose proof (transform_exact_entries v h (Hans 0) (Hans 1)) as (_ & Hl & _).
  pose proof (fun k => transform_answers exact_externals (length v) (State v h) k
                         (Hans 0) (Hans 1)) as Hans1.
  destruct (final (transform exact_externals (length v) (State v h))) as [w h1].
  cbn [vector mem] in *. rewrite <- Hl.
  apply (inverse_neighbours w h1 0); try (rewrite Hans1; apply Hans). lia.
Qed.

Lemma roundtrip_cannot_recover_witness :
  map (Rmult (2 / 3)) (roundtrip [0; 0; 1]%R fresh_heap) <> [0; 0; 1]%R.
Proof.
  apply (roundtrip_cannot_recover [0; 0; 1]%R fresh_heap (2 / 3)%R).
  - simpl. lia.
  - simpl. intros Heq. injection Heq as Heq. lra.
  - exact fresh_heap_serves.
Defined.

(** With exact arithmetic and exact FFTs, on a single sample [transform]
    leaves the sample as it is and [inverse_transform] halves it. *)
Theorem single_sample_exact (a : R) (h : heap) :
  answer 0 h = true -> answer 1 h = true -> answer 2 h = true ->
  vector (final (transform exact_externals 1 (State [a] h))) = [a] /\
  vector (final (inverse_transform exact_externals 1 (State [a] h))) = [(a / 2)%R].
Proof.
  intros H0 H1 H2. split.
  - destruct (transform_exact_entries [a] h H0 H1) as (_ & Hlen & Hlow & _).
    cbn [length] in *.
    destruct (vector _) as [|x [|? ?]]; try discriminate.
    specialize (Hlow 0 ltac:(lia) ltac:(lia)). simpl in Hlow. injection Hlow as ->.
    rewrite dct2_single. reflexivity.
  - destruct (inverse_exact_entries [a] h H0 H1 H2) as (_ & Hlen & _ & Hmid).
    cbn [length] in *. specialize (Hmid eq_refl).
    destruct (vector _) as [|y [|? ?]]; try discriminate.
    simpl in Hmid. injection Hmid as ->. f_equal.
    unfold halved. simpl. unfold sample. simpl.
    replace (0 * PI / (1 + 1))%R with 0%R by lra.
    replace (2 * PI * 0 / 1)%R with 0%R by lra.
    rewrite cos_0, sin_0. lra.
Qed.

Lemma single_sample_exact_witness :
  vector (final (transform exact_externals 1 (State [3]%R fresh_heap))) = [3]%R /\
  vector (final (inverse_transform exact_externals 1 (State [3]%R fresh_heap))) =
    [(3 / 2)%R].
Proof.
  exact (single_sample_exact 3 fresh_heap eq_refl eq_refl eq_refl).
Defined.
